(** * ldoce5viewer: the query aggregation engine of [qtgui/main.py]

    A shallow embedding of the search controller of the main window
    ([_instantSearch], [_updateIndex], [selectItemRelative] and the
    timer and completion slots around them), with the properties of the
    design document proved or refuted on it. Around the controller it
    also covers the phrase taken from the selected text and from the
    clipboard, the history menus, the lazily opened searchers and the
    layout chosen on a resize.

    Python values are modelled as follows.
    - [str] is a list of Unicode code points ([pystr]).
    - A result item is the 4-tuple [(text, path, sortkey, prio)] that
      [itemgetter(0)], [itemgetter(1)] and [itemgetter(2, 3, 1)] read.
    - A tuple of items or [None] is [option (list item)].
    - [float] is IEEE binary64, through the Standard Library's
      [SpecFloat] with [prec = 53] and [emax = 1024].
    - A raised exception is the [Raise] case of [result]. *)

From Stdlib Require Import ZArith List Bool Lia String Ascii SpecFloat QArith.
From Stdlib Require Import Sorted.
From stdpp Require Import base decidable option list numbers countable gmap.

Local Open Scope Z_scope.

(** ** Strings *)

Definition pystr : Type := list N.

Definition str (s : string) : pystr :=
  map N_of_ascii (list_ascii_of_string s).

(** ** Result items *)

Record item : Type := Item {
  text : pystr;      (* index 0: display markup *)
  path : pystr;      (* index 1 *)
  sortkey : pystr;   (* index 2 *)
  prio : Z           (* index 3 *)
}.

#[global] Instance item_eq_dec : EqDecision item.
Proof. solve_decision. Defined.

(** Python truthiness of a value that is [None] or a tuple. *)
Definition truthy {A} (r : option (list A)) : bool :=
  match r with
  | Some (_ :: _) => true
  | _ => false
  end.

(** ** ResultMerger: the "Update Index" block of [_updateIndex] *)

Definition closed_paths (incr_res : list item) : gset pystr :=
  list_to_set (map path incr_res).

Definition tuple_of {A} (r : option (list A)) : list A := default [] r.

Definition merge_results (incr_res full_res : option (list item)) : list item :=
  if truthy incr_res && truthy full_res then
    let closed := closed_paths (tuple_of incr_res) in
    tuple_of incr_res ++ filter (fun it => path it ∉ closed) (tuple_of full_res)
  else if truthy incr_res then tuple_of incr_res
  else if truthy full_res then tuple_of full_res
  else [].

(** ** Exceptions *)

Inductive exn : Type :=
  | EnvironmentError          (* OSError and its subclasses *)
  | IncrementalIndexError     (* incremental.IndexError *)
  | OtherException (name : string)
  | TypeError
  | IndexError                (* the built-in one, from tuple indexing *)
  | AttributeError
  | OverflowError
  | ValueError.

Inductive result (A : Type) : Type :=
  | Ok (a : A)
  | Raise (e : exn).
Arguments Ok {A} a.
Arguments Raise {A} e.

Definition bind {A B} (r : result A) (k : A -> result B) : result B :=
  match r with
  | Ok a => k a
  | Raise e => Raise e
  end.

Notation "x <- r ;; k" := (bind r (fun x => k))
  (at level 100, r at next level, right associativity).

(** ** Configuration constants *)

Definition _FTS_HWDPHR_LIMIT : Z := 10000.
Definition _INCREMENTAL_LIMIT : Z := 500.
Definition _MAX_DELAY_UPDATE_INDEX : Z := 100.

(** ** Binary64 arithmetic of [_incr_delay_func] *)

Module Float.

Definition prec : Z := 53.
Definition emax : Z := 1024.

(** The double nearest to an integer, ties to even. *)
Definition nearest (n : Z) : spec_float := binary_normalize prec emax n 0 false.

(** [float(n)] for an [int]: [OverflowError] when the nearest double
    is not finite. *)
Definition of_int (n : Z) : result spec_float :=
  match nearest n with
  | S754_infinity _ => Raise OverflowError
  | f => Ok f
  end.

Definition div (x y : spec_float) : spec_float := SFdiv prec emax x y.
Definition mul (x y : spec_float) : spec_float := SFmul prec emax x y.
Definition ltb (x y : spec_float) : bool := SFltb x y.

(** [int(x)]: truncation toward zero. *)
Definition to_int (x : spec_float) : result Z :=
  match x with
  | S754_zero _ => Ok 0
  | S754_finite s m e =>
      let a := if 0 <=? e then Z.shiftl (Z.pos m) e
               else Z.shiftr (Z.pos m) (- e) in
      Ok (if s then - a else a)
  | S754_infinity _ => Raise OverflowError
  | S754_nan => Raise ValueError
  end.

(** The literal [0.3]: the double nearest to 3/10, 0x3FD3333333333333. *)
Definition zero_point_three : spec_float :=
  S754_finite false 5404319552844595 (-54).

(** Python's two-argument [min] and [max] keep the first argument
    unless the second is strictly smaller (larger). *)
Definition py_min (a b : spec_float) : spec_float := if ltb b a then b else a.
Definition py_max (a b : spec_float) : spec_float := if ltb a b then b else a.

End Float.

(** [_incr_delay_func]. The int operands [1], [_INCREMENTAL_LIMIT] and
    [_MAX_DELAY_UPDATE_INDEX] each meet a float, where Python uses the
    double of the same value ([Float.nearest] is exact on them). *)
Definition _incr_delay_func (count : Z) : result Z :=
  c <- Float.of_int count ;;
  let x := Float.py_max Float.zero_point_three
             (Float.py_min (Float.nearest 1)
                (Float.div c (Float.nearest _INCREMENTAL_LIMIT))) in
  Float.to_int (Float.mul (Float.nearest _MAX_DELAY_UPDATE_INDEX) x).

(** ** String methods used by the controller *)

(** [str.isspace] on one code point: the code points that CPython's
    [strip] and [split] treat as whitespace. *)
Definition isspace (c : N) : bool :=
  ((9 <=? c) && (c <=? 13) || (28 <=? c) && (c <=? 32)
   || (c =? 133) || (c =? 160) || (c =? 5760)
   || (8192 <=? c) && (c <=? 8202) || (c =? 8232) || (c =? 8233)
   || (c =? 8239) || (c =? 8287) || (c =? 12288))%N.

Fixpoint lstrip (s : pystr) : pystr :=
  match s with
  | c :: s' => if isspace c then lstrip s' else s
  | [] => []
  end.

Definition rstrip (s : pystr) : pystr := rev (lstrip (rev s)).

(** [s.strip()] *)
Definition strip (s : pystr) : pystr := rstrip (lstrip s).

(** [s.split()]: [cur] is the token being read, last character first. *)
Fixpoint split_from (cur : pystr) (s : pystr) : list pystr :=
  match s with
  | [] => match cur with [] => [] | _ => [rev cur] end
  | c :: s' =>
      if isspace c then
        match cur with
        | [] => split_from [] s'
        | _ => rev cur :: split_from [] s'
        end
      else split_from (c :: cur) s'
  end.

Definition split (s : pystr) : list pystr := split_from [] s.

(** [s.startswith(prefix)] *)
Fixpoint startswith (s prefix : pystr) : bool :=
  match prefix, s with
  | [], _ => true
  | p :: prefix', c :: s' => (c =? p)%N && startswith s' prefix'
  | _ :: _, [] => false
  end.

(** [c in s] for a one-character [c] *)
Definition contains (s : pystr) (c : N) : bool := existsb (N.eqb c) s.

(** [any(c in query for c in "*?")] *)
Definition contains_wild (query : pystr) : bool :=
  existsb (contains query) (str "*?").

(** [len(t)] *)
Definition len {A} (l : list A) : Z := Z.of_nat (length l).

(** [t[i]] on a tuple, with Python's negative indices. *)
Definition getitem {A} (l : list A) (i : Z) : result A :=
  let j := if i <? 0 then i + len l else i in
  if j <? 0 then Raise IndexError
  else match nth_error l (Z.to_nat j) with
       | Some x => Ok x
       | None => Raise IndexError
       end.

(** ** Collaborators *)

(** What the controller reaches through its lazy handles and imports.
    - [incremental]: [self._incremental] and its [search(key, limit)];
      [None] when the index could not be opened.
    - [fts_hwdphr]: [self._fts_hwdphr] and its [correct(word)]; the
      asynchronous client [self._fts_hwdphr_async] is built from it and
      stored with it, so it is available exactly when this is.
    - [normalize_index_key] comes from [utils.text], [lower] is
      [str.lower], [quick_ratio a b] is
      [SequenceMatcher(a=a, b=b).quick_ratio()]. *)
Record env : Type := Env {
  incremental : option (pystr -> Z -> result (list item));
  fts_hwdphr : option (pystr -> list pystr);
  normalize_index_key : pystr -> pystr;
  lower : pystr -> pystr;
  quick_ratio : pystr -> pystr -> Q
}.

Definition _fts_hwdphr_async (E : env) : bool :=
  match fts_hwdphr E with Some _ => true | None => false end.

(** ** Controller state *)

Inductive timer : Type :=
  | TimerUpdateIndex
  | TimerAutoFTS
  | TimerSpellCorrection
  | TimerSearchingLabel.

#[global] Instance timer_eq_dec : EqDecision timer.
Proof. solve_decision. Defined.

(** Requests that leave the controller: timers armed, backend requests,
    and what is pushed to the content view. *)
Inductive call : Type :=
  | TimerStart (t : timer) (msec : Z)
  | IncrementalSearch (key : pystr) (limit : Z)
  | FtsCancel
  | FtsUpdateQuery (query_str1 query_str2 : option pystr)
      (itemtypes : list pystr) (limit : option Z) (merge : bool)
  | FtsCorrect (word : pystr)
  | WebSetHtml (html : string)
  | WebLoad (url : pystr).

Record state : Type := State {
  (* results *)
  incr_results : option (list item);
  fts_results : option (list item);
  found_items : option (list item);
  (* status *)
  selection_pending : bool;
  loading_pending : bool;
  auto_fts_phrase : option pystr;
  (* widgets *)
  line_text : pystr;                 (* lineEditSearch.text() *)
  line_focus : bool;                 (* lineEditSearch.hasFocus() *)
  completer : option (list pystr);   (* lineEditSearch.completer() *)
  list_rows : nat;                   (* listWidgetIndex.count() *)
  current_row : Z;                   (* listWidgetIndex.currentRow() *)
  label_searching : bool;            (* labelSearching.isVisible() *)
  web_url : pystr;                   (* webView.url().toString() *)
  (* single-shot timers: the interval of each active one *)
  timers : timer -> option Z;
  (* requests issued so far, oldest first *)
  calls : list call
}.

Definition set_incr_results v s :=
  State v (fts_results s) (found_items s) (selection_pending s)
    (loading_pending s) (auto_fts_phrase s) (line_text s) (line_focus s)
    (completer s) (list_rows s) (current_row s) (label_searching s)
    (web_url s) (timers s) (calls s).
Definition set_fts_results v s :=
  State (incr_results s) v (found_items s) (selection_pending s)
    (loading_pending s) (auto_fts_phrase s) (line_text s) (line_focus s)
    (completer s) (list_rows s) (current_row s) (label_searching s)
    (web_url s) (timers s) (calls s).
Definition set_found_items v s :=
  State (incr_results s) (fts_results s) v (selection_pending s)
    (loading_pending s) (auto_fts_phrase s) (line_text s) (line_focus s)
    (completer s) (list_rows s) (current_row s) (label_searching s)
    (web_url s) (timers s) (calls s).
Definition set_selection_pending v s :=
  State (incr_results s) (fts_results s) (found_items s) v
    (loading_pending s) (auto_fts_phrase s) (line_text s) (line_focus s)
    (completer s) (list_rows s) (current_row s) (label_searching s)
    (web_url s) (timers s) (calls s).
Definition set_loading_pending v s :=
  State (incr_results s) (fts_results s) (found_items s) (selection_pending s)
    v (auto_fts_phrase s) (line_text s) (line_focus s)
    (completer s) (list_rows s) (current_row s) (label_searching s)
    (web_url s) (timers s) (calls s).
Definition set_auto_fts_phrase v s :=
  State (incr_results s) (fts_results s) (found_items s) (selection_pending s)
    (loading_pending s) v (line_text s) (line_focus s)
    (completer s) (list_rows s) (current_row s) (label_searching s)
    (web_url s) (timers s) (calls s).
Definition set_line_text v s :=
  State (incr_results s) (fts_results s) (found_items s) (selection_pending s)
    (loading_pending s) (auto_fts_phrase s) v (line_focus s)
    (completer s) (list_rows s) (current_row s) (label_searching s)
    (web_url s) (timers s) (calls s).
Definition set_line_focus v s :=
  State (incr_results s) (fts_results s) (found_items s) (selection_pending s)
    (loading_pending s) (auto_fts_phrase s) (line_text s) v
    (completer s) (list_rows s) (current_row s) (label_searching s)
    (web_url s) (timers s) (calls s).
Definition set_completer v s :=
  State (incr_results s) (fts_results s) (found_items s) (selection_pending s)
    (loading_pending s) (auto_fts_phrase s) (line_text s) (line_focus s)
    v (list_rows s) (current_row s) (label_searching s)
    (web_url s) (timers s) (calls s).
Definition set_list_rows v s :=
  State (incr_results s) (fts_results s) (found_items s) (selection_pending s)
    (loading_pending s) (auto_fts_phrase s) (line_text s) (line_focus s)
    (completer s) v (current_row s) (label_searching s)
    (web_url s) (timers s) (calls s).
Definition set_current_row v s :=
  State (incr_results s) (fts_results s) (found_items s) (selection_pending s)
    (loading_pending s) (auto_fts_phrase s) (line_text s) (line_focus s)
    (completer s) (list_rows s) v (label_searching s)
    (web_url s) (timers s) (calls s).
Definition set_label_searching v s :=
  State (incr_results s) (fts_results s) (found_items s) (selection_pending s)
    (loading_pending s) (auto_fts_phrase s) (line_text s) (line_focus s)
    (completer s) (list_rows s) (current_row s) v
    (web_url s) (timers s) (calls s).
Definition set_timers v s :=
  State (incr_results s) (fts_results s) (found_items s) (selection_pending s)
    (loading_pending s) (auto_fts_phrase s) (line_text s) (line_focus s)
    (completer s) (list_rows s) (current_row s) (label_searching s)
    (web_url s) v (calls s).
Definition set_calls v s :=
  State (incr_results s) (fts_results s) (found_items s) (selection_pending s)
    (loading_pending s) (auto_fts_phrase s) (line_text s) (line_focus s)
    (completer s) (list_rows s) (current_row s) (label_searching s)
    (web_url s) (timers s) v.

(** The state [__init__] leaves before the first commit. *)
Definition init_state : state :=
  State None None None false false None [] false None 0 (-1) false []
    (fun _ => None) [].

(** *** Widget and timer primitives *)

Definition emit (c : call) (s : state) : state :=
  set_calls (calls s ++ [c]) s.

(** [QTimer.start(msec)] (re)arms the timer; [QTimer.stop()] disarms it. *)
Definition timer_start (t : timer) (msec : Z) (s : state) : state :=
  emit (TimerStart t msec)
    (set_timers (fun t' => if decide (t' = t) then Some msec else timers s t') s).

Definition timer_stop (t : timer) (s : state) : state :=
  set_timers (fun t' => if decide (t' = t) then None else timers s t') s.

(** [lw.setCurrentRow(row)]: a row outside the list leaves no current
    row. *)
Definition list_setCurrentRow (row : Z) (s : state) : state :=
  set_current_row
    (if (0 <=? row) && (row <? Z.of_nat (list_rows s)) then row else -1) s.

(** [lw.setFocus()] takes the keyboard focus from the query box. *)
Definition list_setFocus (s : state) : state := set_line_focus false s.

(** [lw.clear()] then [lw.addItems(items)] *)
Definition list_clear (s : state) : state :=
  set_current_row (-1) (set_list_rows 0 s).
Definition list_addItems (n : nat) (s : state) : state :=
  set_list_rows (list_rows s + n)%nat s.

(** ** Item list: [selectItemRelative] and [_loadItem] *)

(** [for (row, x) in enumerate(l): if p(x): ... break], counting rows
    from [row]. *)
Fixpoint find_row_from {A} (p : A -> bool) (row : Z) (l : list A) : option Z :=
  match l with
  | [] => None
  | x :: l' => if p x then Some row else find_row_from p (row + 1) l'
  end.

Definition find_row {A} (p : A -> bool) (l : list A) : option Z :=
  find_row_from p 0 l.

(** The similarity loop of [selectItemRelative]: [r] is the row of the
    head of [items], [row] and [max_ratio] are the loop variables. *)
Fixpoint most_similar_from (E : env) (text : pystr) (r : Z) (items : list item)
    (row : Z) (max_ratio : Q) : Z :=
  match items with
  | [] => row
  | it :: items' =>
      let ratio := quick_ratio E text (sortkey it) in
      if negb (Qle_bool ratio max_ratio)   (* ratio > max_ratio *)
      then most_similar_from E text (r + 1) items' r ratio
      else most_similar_from E text (r + 1) items' row max_ratio
  end.

Definition most_similar_row (E : env) (text : pystr) (items : list item) : Z :=
  most_similar_from E text 0 items (-1) 0%Q.

Definition selectItemRelative (E : env) (rel : Z) (s : state) : state :=
  if negb (truthy (found_items s)) then set_selection_pending true s
  else
    let items := tuple_of (found_items s) in
    let row_prev := current_row s in
    if (row_prev =? -1) || line_focus s then
      (* Find the prefix/exact match *)
      let text := lower E (normalize_index_key E (line_text s)) in
      match find_row (fun it => startswith (lower E (sortkey it)) text) items with
      | Some row => list_setCurrentRow row (list_setFocus s)
      | None =>
          (* find the most similar item *)
          let row := most_similar_row E text items in
          list_setCurrentRow row (list_setFocus s)
      end
    else
      let row := Z.max 0 (Z.min (len items - 1) (row_prev + rel)) in
      if negb (row =? row_prev)
      then list_setCurrentRow row (list_setFocus s)
      else s.

(** [_loadItem(row)]; the two URLs are compared as text. The page load
    is asynchronous: [web_url] changes when the view reports it. *)
Definition _loadItem (row : option Z) (s : state) : state :=
  if negb (truthy (found_items s)) then set_loading_pending true s
  else
    let items := tuple_of (found_items s) in
    let row := default (current_row s) row in
    if (0 <=? row) && (row <? len items) then
      match nth_error items (Z.to_nat row) with
      | Some it =>
          let url := str "dict://" ++ path it in
          if bool_decide (url = web_url s) then s else emit (WebLoad url) s
      | None => s
      end
    else s.

(** ** Index: [_updateIndex] *)

(** The test that arms the spell-correction timer. *)
Definition spell_check_due (s : state) : bool :=
  match incr_results s, fts_results s with
  | Some incr_res, Some full_res =>
      (len incr_res =? 0) && (len full_res =? 0)
      && (len (split (strip (line_text s))) =? 1)
  | _, _ => false
  end.

(** [itemgetter(2, 3, 1)] *)
Definition comparer (it : item) : pystr * Z * pystr :=
  (sortkey it, prio it, path it).

(** "Escape the previous selection" *)
Definition escape_selection (s : state) : result (option item) :=
  let row_prev := current_row s in
  if row_prev =? -1 then Ok None
  else match found_items s with
       | None => Raise TypeError
       | Some items => it <- getitem items row_prev ;; Ok (Some it)
       end.

(** "Update Index" and "Create a new list" *)
Definition rebuild_list (s : state) : state :=
  let items := merge_results (incr_results s) (fts_results s) in
  let s := set_found_items (Some items) s in
  list_addItems (length items) (list_clear s).

(** "Restore the previous selection"; an item tuple is always truthy. *)
Definition restore_selection (selected_prev : option item) (s : state) : state :=
  match selected_prev with
  | Some prev =>
      match find_row (fun it => bool_decide (comparer it = comparer prev))
              (tuple_of (found_items s)) with
      | Some row => list_setCurrentRow row s
      | None => s
      end
  | None => s
  end.

(** The row of the entry shown in the content view, when it is listed. *)
Definition select_shown_entry (s : state) : state :=
  match find_row (fun it => bool_decide (str "dict:" ++ path it = web_url s))
          (tuple_of (found_items s)) with
  | Some sel_row => list_setCurrentRow sel_row s
  | None => s
  end.

Definition run_pending (E : env) (s : state) : state :=
  let s := if selection_pending s
           then selectItemRelative E 0 (set_selection_pending false s) else s in
  if loading_pending s
  then _loadItem None (set_loading_pending false s) else s.

Definition arm_spell_correction (s : state) : state :=
  if spell_check_due s then timer_start TimerSpellCorrection 200 s else s.

Definition _updateIndex (E : env) (s : state) : result state :=
  let s := arm_spell_correction s in
  selected_prev <- escape_selection s ;;
  let s := rebuild_list s in
  let s := restore_selection selected_prev s in
  let s := select_shown_entry s in
  Ok (run_pending E s).

(** ** Search *)

(** [except (EnvironmentError, incremental.IndexError)] *)
Definition caught_by_incremental_search (e : exn) : bool :=
  match e with
  | EnvironmentError | IncrementalIndexError => true
  | _ => false
  end.

Definition _incremental_search (E : env) (key : pystr) (s : state)
    : result (option (list item) * state) :=
  match incremental E with
  | None => Ok (None, s)
  | Some search =>
      let s := emit (IncrementalSearch key _INCREMENTAL_LIMIT) s in
      match search key _INCREMENTAL_LIMIT with
      | Ok results => Ok (Some results, s)
      | Raise e =>
          if caught_by_incremental_search e then Ok (None, s) else Raise e
      end
  end.

Definition incremental_advisory : string :=
  "<p>The incremental search index has not been created yet or broken.</p>".

Definition fulltext_advisory : string :=
  "<p>The full-text search index has not been created yet or broken.</p>".

Definition _instantSearch (E : env) (pending delay : bool) (s : state)
    : result state :=
  let query := line_text s in
  let s := set_selection_pending pending s in
  let s := set_loading_pending pending s in
  let s := timer_stop TimerSearchingLabel s in
  let s := set_label_searching false s in
  let s := if _fts_hwdphr_async E then emit FtsCancel s else s in
  let s := timer_stop TimerUpdateIndex s in
  let s := timer_stop TimerAutoFTS s in
  let s := timer_stop TimerSpellCorrection s in
  let s := set_incr_results None s in
  let s := set_fts_results None s in
  match query with
  | _ :: _ =>
      rs <- (if negb (contains_wild query)
             then _incremental_search E query s
             else Ok (Some [], s)) ;;
      let '(results, s) := rs in
      match results with
      | Some results =>
          let s := set_incr_results (Some results) s in
          let s := set_auto_fts_phrase (Some query) s in
          let s := timer_start TimerAutoFTS 0 s in
          msec <- (if delay then _incr_delay_func (len results) else Ok 0) ;;
          Ok (timer_start TimerUpdateIndex msec s)
      | None =>
          let s := emit (WebSetHtml incremental_advisory) s in
          Ok (timer_start TimerUpdateIndex 0 s)
      end
  | [] => Ok (timer_start TimerUpdateIndex 0 s)
  end.

Definition _onTimerAutoFullSearchTimeout (E : env) (s : state) : result state :=
  if _fts_hwdphr_async E then
    match auto_fts_phrase s with
    | None => Raise TypeError
    | Some query =>
        let itemtypes :=
          if existsb (contains query) (str "?*") then [str "hm"] else [] in
        let s := timer_start TimerSearchingLabel 200 s in
        Ok (emit (FtsUpdateQuery (Some query) None itemtypes
                    (Some (_FTS_HWDPHR_LIMIT + 1)) true) s)
    end
  else Ok s.

Definition _onTimerSpellCorrection (E : env) (s : state) : result state :=
  let query := line_text s in
  if len (split query) =? 1 then
    match fts_hwdphr E with
    | None => Raise AttributeError
    | Some correct =>
        let s := emit (FtsCorrect query) s in
        Ok (set_completer (Some (correct query)) s)
    end
  else Ok s.

(** [r] is what [take_result()] hands over: [None] for a superseded
    request, else [(merge, result)]. *)
Definition _onAsyncFTSearchFinished (r : option (bool * list item)) (s : state)
    : state :=
  let s := timer_stop TimerSearchingLabel s in
  let s := set_label_searching false s in
  match r with
  | None => s
  | Some (merge, result) =>
      let s := if negb merge then set_incr_results None s else s in
      let s := set_fts_results (Some result) s in
      timer_start TimerUpdateIndex 0 s
  end.

Definition _onAsyncFTSearchError (s : state) : state :=
  let s := timer_stop TimerSearchingLabel s in
  let s := set_label_searching false s in
  emit (WebSetHtml fulltext_advisory) s.

Definition _onTimerSearchingLabel (s : state) : state :=
  set_label_searching true s.

(** [_onTextEdited]: the edit has already put [text] in the box. *)
Definition _onTextEdited (E : env) (text : pystr) (s : state) : result state :=
  let s := set_line_text text s in
  let s := set_completer None s in
  _instantSearch E false true s.

(** The search half of [fullSearch] (advanced search); the page it then
    loads in the content view does not touch the item list. *)
Definition fullSearch (E : env) (phrase filters : option pystr)
    (only_web : bool) (s : state) : state :=
  let s := set_selection_pending false s in
  let s := set_loading_pending false s in
  let s := set_line_text (default [] phrase) s in
  if negb only_web && _fts_hwdphr_async E then
    let s := set_incr_results (Some []) s in
    let s := set_fts_results None s in
    let s := timer_start TimerSearchingLabel 200 s in
    let s := set_label_searching true s in
    let s := emit (FtsUpdateQuery phrase filters [str "hm"] None false) s in
    timer_start TimerUpdateIndex 0 s
  else s.

(** ** The event loop *)

Inductive event : Type :=
  | TextEdited (text : pystr)
  | Timeout (t : timer)
  | AsyncFTSearchFinished (r : option (bool * list item))
  | AsyncFTSearchError
  | SelectItemRelative (rel : Z)
  | LoadItem
  | FullSearch (phrase filters : option pystr) (only_web : bool)
  | FocusChanged (on_query_box : bool)
  | UrlChanged (url : pystr).

(** The slot connected to each timer. *)
Definition timer_slot (E : env) (t : timer) (s : state) : result state :=
  match t with
  | TimerUpdateIndex => _updateIndex E s
  | TimerAutoFTS => _onTimerAutoFullSearchTimeout E s
  | TimerSpellCorrection => _onTimerSpellCorrection E s
  | TimerSearchingLabel => Ok (_onTimerSearchingLabel s)
  end.

(** One turn of the loop. A single-shot timer is disarmed before its
    slot runs; a timeout for a timer that is not armed does not occur. *)
Definition step (E : env) (ev : event) (s : state) : result state :=
  match ev with
  | TextEdited text => _onTextEdited E text s
  | Timeout t =>
      match timers s t with
      | Some _ => timer_slot E t (timer_stop t s)
      | None => Ok s
      end
  | AsyncFTSearchFinished r => Ok (_onAsyncFTSearchFinished r s)
  | AsyncFTSearchError => Ok (_onAsyncFTSearchError s)
  | SelectItemRelative rel => Ok (selectItemRelative E rel s)
  | LoadItem => Ok (_loadItem None s)
  | FullSearch phrase filters only_web => Ok (fullSearch E phrase filters only_web s)
  | FocusChanged b => Ok (set_line_focus b s)
  | UrlChanged url =>
      Ok (State (incr_results s) (fts_results s) (found_items s)
            (selection_pending s) (loading_pending s) (auto_fts_phrase s)
            (line_text s) (line_focus s) (completer s) (list_rows s)
            (current_row s) (label_searching s) url (timers s) (calls s))
  end.

(** Running a list of events, stopping at the first exception. *)
Fixpoint run (E : env) (evs : list event) (s : state) : result state :=
  match evs with
  | [] => Ok s
  | ev :: evs' => s' <- step E ev s ;; run E evs' s'
  end.

(** ** Instances used to run the model *)

(** [str.lower] on ASCII text. *)
Definition ascii_lower (s : pystr) : pystr :=
  map (fun c => if (65 <=? c) && (c <=? 90) then c + 32 else c)%N s.

Module Difflib.

(** Modelled from the documentation of [difflib.SequenceMatcher]:
    [quick_ratio] counts, for each element of [a] in turn, whether [b]
    still has an unused occurrence of it, and returns
    [2.0 * matches / (len(a) + len(b))], or [1.0] for two empty
    sequences. The quotient is kept exact. *)

Definition fullbcount (b : pystr) : gmap N Z :=
  foldl (fun m elt => <[elt := default 0 (m !! elt) + 1]> m) ∅ b.

Fixpoint count_matches (fullb avail : gmap N Z) (a : pystr) (matches : Z) : Z :=
  match a with
  | [] => matches
  | elt :: a' =>
      let numb := match avail !! elt with
                  | Some n => n
                  | None => default 0 (fullb !! elt)
                  end in
      count_matches fullb (<[elt := numb - 1]> avail) a'
        (if 0 <? numb then matches + 1 else matches)
  end.

Definition quick_ratio (a b : pystr) : Q :=
  let matches := count_matches (fullbcount b) ∅ a 0 in
  let length := len a + len b in
  if length =? 0 then 1%Q else Qmake (2 * matches) (Z.to_pos length).

End Difflib.

(** An index that answers every key with [results], and a full-text
    searcher with no spelling suggestions. *)
Definition demo_env (results : list item) : env :=
  Env (Some (fun _ _ => Ok results)) (Some (fun _ => []))
    (fun key => key) ascii_lower Difflib.quick_ratio.

(** Sample entries: [entry label prio] has the path ["/fs/" + label] and
    the sort key [label]. *)
Definition entry (label : string) (prio : Z) : item :=
  Item (str label) (str "/fs/" ++ str label) (str label) prio.

(** Number of items of [l] whose path is [p]. *)
Definition occurrences (p : pystr) (l : list item) : nat :=
  length (filter (fun it => path it = p) l).

(** ** Search phrase: [searchSelectedText] *)







(** ** Clipboard: [_onClipboardChanged] *)








(** ** History menus: [update_navmenu] in [_onUrlChanged] *)

Record history_item : Type := HistoryItem {
  h_title : pystr;   (* hitem.title() *)
  h_url : pystr      (* hitem.url() *)
}.

(** [l[start:stop]] for two given bounds, with Python's negative
    indices. *)
Definition slice_bound (n i : Z) : Z :=
  if i <? 0 then Z.max 0 (i + n) else Z.min i n.

Definition slice {A} (l : list A) (start stop : Z) : list A :=
  let lo := slice_bound (len l) start in
  let hi := slice_bound (len l) stop in
  take (Z.to_nat (hi - lo)) (drop (Z.to_nat lo) l).

(** [enumerate(l)], counting from [k]. *)
Fixpoint enumerate_from {A} (k : Z) (l : list A) : list (Z * A) :=
  match l with
  | [] => []
  | x :: l' => (k, x) :: enumerate_from (k + 1) l'
  end.

(** The history entries a menu is built from: the 20 before the current
    one, nearest first, or the 20 after it. *)
Definition nav_window (items : list history_item) (curidx : Z) (back : bool)
    : list (Z * history_item) :=
  let items := enumerate_from 0 items in
  if back then rev (slice items (Z.max 0 (curidx - 20)) curidx)
  else slice items (curidx + 1) (curidx + 1 + 20).

(** The loop that fills the menu: an entry is [(title, idx)], where
    [idx] is the history index its action goes to. [ellipsis] comes from
    [utils.text]; [menu.addAction] is taken not to raise. *)
Fixpoint navmenu_actions (ellipsis : pystr -> Z -> pystr) (urlset : gset pystr)
    (items : list (Z * history_item)) : list (pystr * Z) :=
  match items with
  | [] => []
  | (idx, hitem) :: items' =>
      if bool_decide (h_title hitem = []) || bool_decide (h_url hitem ∈ urlset)
      then navmenu_actions ellipsis urlset items'
      else (ellipsis (h_title hitem) 20, idx)
             :: navmenu_actions ellipsis ({[h_url hitem]} ∪ urlset) items'
  end.

Definition update_navmenu (ellipsis : pystr -> Z -> pystr)
    (items : list history_item) (curidx : Z) (back : bool) : list (pystr * Z) :=
  navmenu_actions ellipsis ∅ (nav_window items curidx back).

(** [make_goto(idx)()] on a history of [count] entries: the index it
    goes to, if any. *)
Definition make_goto (idx : Z) (count : Z) : option Z :=
  if (0 <=? idx) && (idx <? count) then Some idx else None.

(** Whether [idx] is one of the 20 history indices before (after) the
    current one. *)
Definition in_nav_range (curidx : Z) (back : bool) (idx : Z) : Prop :=
  if back then curidx - 20 <= idx < curidx else curidx < idx <= curidx + 20.

Definition nav_order (back : bool) (a b : Z) : Prop :=
  if back then b < a else a < b.

(** ** Resource loader: the lazily opened searchers *)

Module Loader.

Definition _LAZY_INCREMENTAL : pystr := str "incremental".
Definition _LAZY_FTS_HWDPHR : pystr := str "fts_hwdphr".
Definition _LAZY_FTS_DEFEXA : pystr := str "fts_defexa".
Definition _LAZY_FTS_HWDPHR_ASYNC : pystr := str "fts_hwdphr_async".

(** A loaded object, by identity. Searchers are plain objects: they are
    true in a condition. *)
Definition handle : Type := N.

Inductive release : Type :=
  | Close (obj : handle)
  | Shutdown (obj : handle).

(** [_lazy], the searchers the URL scheme handler was last given, and the
    [close()] and [shutdown()] calls made so far, oldest first. *)
Record loader : Type := Mk {
  _lazy : gmap pystr handle;
  scheme_searchers : option handle * option handle;
  releases : list release
}.

Definition set_lazy (m : gmap pystr handle) (l : loader) : loader :=
  Mk m (scheme_searchers l) (releases l).

Definition _updateNetworkAccessManager (fulltext_hp fulltext_de : option handle)
    (l : loader) : loader :=
  Mk (_lazy l) (fulltext_hp, fulltext_de) (releases l).

(** [obj = self._lazy.pop(key, None)], then [if obj: obj.close()] (or
    [shutdown()]). *)
Definition pop_and_release (key : pystr) (how : handle -> release) (l : loader)
    : loader :=
  match _lazy l !! key with
  | Some obj => Mk (delete key (_lazy l)) (scheme_searchers l)
                  (releases l ++ [how obj])
  | None => l
  end.

Definition _unload_searchers (l : loader) : loader :=
  let l := _updateNetworkAccessManager None None l in
  let l := pop_and_release _LAZY_FTS_HWDPHR_ASYNC Shutdown l in
  let l := pop_and_release _LAZY_FTS_HWDPHR Close l in
  let l := pop_and_release _LAZY_FTS_DEFEXA Close l in
  pop_and_release _LAZY_INCREMENTAL Close l.

(** [except (EnvironmentError, fulltext.IndexError)]; the second is the
    [OtherException] of that name. *)
Definition caught_by_fts_loader (e : exn) : bool :=
  match e with
  | EnvironmentError => true
  | OtherException name => String.eqb name "fulltext.IndexError"
  | _ => false
  end.

(** The property [_fts_hwdphr]; [new] is what [fulltext.Searcher(...)] does
    if it is called. *)
Definition _fts_hwdphr (new : result handle) (l : loader)
    : result (option handle * loader) :=
  match _lazy l !! _LAZY_FTS_HWDPHR with
  | Some obj => Ok (Some obj, l)
  | None =>
      r <- match new with
           | Ok obj => Ok (Some obj, set_lazy (<[_LAZY_FTS_HWDPHR := obj]> (_lazy l)) l)
           | Raise e => if caught_by_fts_loader e then Ok (None, l) else Raise e
           end ;;
      let '(obj, l) := r in
      Ok (obj, _updateNetworkAccessManager (_lazy l !! _LAZY_FTS_HWDPHR)
                 (_lazy l !! _LAZY_FTS_DEFEXA) l)
  end.

Definition _fts_defexa (new : result handle) (l : loader)
    : result (option handle * loader) :=
  match _lazy l !! _LAZY_FTS_DEFEXA with
  | Some obj => Ok (Some obj, l)
  | None =>
      r <- match new with
           | Ok obj => Ok (Some obj, set_lazy (<[_LAZY_FTS_DEFEXA := obj]> (_lazy l)) l)
           | Raise e => if caught_by_fts_loader e then Ok (None, l) else Raise e
           end ;;
      let '(obj, l) := r in
      Ok (obj, _updateNetworkAccessManager (_lazy l !! _LAZY_FTS_HWDPHR)
                 (_lazy l !! _LAZY_FTS_DEFEXA) l)
  end.

(** The property [_fts_hwdphr_async]; [new_async searcher] is the
    [AsyncFTSearcher] made for [searcher]. *)
Definition _fts_hwdphr_async (new : result handle) (new_async : handle -> handle)
    (l : loader) : result (option handle * loader) :=
  match _lazy l !! _LAZY_FTS_HWDPHR_ASYNC with
  | Some obj => Ok (Some obj, l)
  | None =>
      r <- _fts_hwdphr new l ;;
      let '(searcher, l) := r in
      match searcher with
      | Some searcher =>
          let obj := new_async searcher in
          Ok (Some obj, set_lazy (<[_LAZY_FTS_HWDPHR_ASYNC := obj]> (_lazy l)) l)
      | None => Ok (None, l)
      end
  end.

(** The property [_incremental]; [new] is what [incremental.Searcher(...)]
    does if it is called. *)
Definition _incremental (new : result handle) (l : loader)
    : result (option handle * loader) :=
  match _lazy l !! _LAZY_INCREMENTAL with
  | Some obj => Ok (Some obj, l)
  | None =>
      match new with
      | Ok obj => Ok (Some obj, set_lazy (<[_LAZY_INCREMENTAL := obj]> (_lazy l)) l)
      | Raise e => if caught_by_incremental_search e then Ok (None, l) else Raise e
      end
  end.

(** The accesses to the loader. *)
Inductive access : Type :=
  | GetFtsHwdphr (new : result handle)
  | GetFtsDefexa (new : result handle)
  | GetFtsHwdphrAsync (new : result handle) (new_async : handle -> handle)
  | GetIncremental (new : result handle)
  | Unload.

Definition perform (a : access) (l : loader) : result (option handle * loader) :=
  match a with
  | GetFtsHwdphr new => _fts_hwdphr new l
  | GetFtsDefexa new => _fts_defexa new l
  | GetFtsHwdphrAsync new new_async => _fts_hwdphr_async new new_async l
  | GetIncremental new => _incremental new l
  | Unload => Ok (None, _unload_searchers l)
  end.

(** The key an access reads. *)
Definition key_of (a : access) : option pystr :=
  match a with
  | GetFtsHwdphr _ => Some _LAZY_FTS_HWDPHR
  | GetFtsDefexa _ => Some _LAZY_FTS_DEFEXA
  | GetFtsHwdphrAsync _ _ => Some _LAZY_FTS_HWDPHR_ASYNC
  | GetIncremental _ => Some _LAZY_INCREMENTAL
  | Unload => None
  end.

Definition searcher_keys : list pystr :=
  [_LAZY_FTS_HWDPHR_ASYNC; _LAZY_FTS_HWDPHR; _LAZY_FTS_DEFEXA; _LAZY_INCREMENTAL].

(** The scheme handler serves from the searchers that are loaded, and an
    asynchronous searcher is loaded only with the searcher it wraps. *)
Definition consistent (l : loader) : Prop :=
  scheme_searchers l
  = (_lazy l !! _LAZY_FTS_HWDPHR, _lazy l !! _LAZY_FTS_DEFEXA)
  /\ (is_Some (_lazy l !! _LAZY_FTS_HWDPHR_ASYNC)
      -> is_Some (_lazy l !! _LAZY_FTS_HWDPHR)).

End Loader.

(** ** Window layout: [resizeEvent] *)

Inductive orientation : Type := Vertical | Horizontal.

(** What [resizeEvent] sets: the splitter's orientation and the texts of
    the three search actions. *)
Record layout : Type := Layout {
  splitter_orientation : orientation;
  search_examples_text : string;
  search_definitions_text : string;
  advanced_search_text : string
}.

Definition resizeEvent (width : Z) : layout :=
  if width <? 350 then Layout Vertical "E" "D" "A"
  else if width <? 550 then Layout Vertical "Exa" "Def" "Adv"
  else if width <? 900 then Layout Horizontal "Exa" "Def" "Advanced"
  else Layout Horizontal "Examples" "Definitions" "Advanced".

(** ** Notions the properties are stated with *)

(** The list widget shows the found items and its current row is one of
    them or [-1]. *)
Definition list_in_sync (s : state) : Prop :=
  list_rows s = length (tuple_of (found_items s))
  /\ -1 <= current_row s < Z.of_nat (list_rows s).

(** [row] is the first row of [l] that satisfies [p]. *)
Definition first_row {A} (p : A -> bool) (l : list A) (row : Z) : Prop :=
  exists (i : nat) (x : A),
    row = Z.of_nat i /\ l !! i = Some x /\ p x = true
    /\ forall (j : nat) (y : A), (j < i)%nat -> l !! j = Some y -> p y = false.

(** The integer part of [100 * max(3/10, min(1, count/500))] in exact
    arithmetic. *)
Definition exact_delay (count : Z) : Z :=
  Z.max 30 (Z.min _MAX_DELAY_UPDATE_INDEX
              (_MAX_DELAY_UPDATE_INDEX * count / _INCREMENTAL_LIMIT)).

(** The two counts at which the double product falls just below the
    exact one. *)
Definition rounds_below (count : Z) : bool :=
  (count =? 285) || (count =? 290).

(** [s] is one token between whitespace: some whitespace, a non-empty
    run without whitespace, some whitespace. *)
Definition one_token (s : pystr) : Prop :=
  exists pre tok post : pystr,
    s = pre ++ tok ++ post
    /\ Forall (fun c => isspace c = true) pre
    /\ tok <> [] /\ Forall (fun c => isspace c = false) tok
    /\ Forall (fun c => isspace c = true) post.

(** [row] is the first row of [l] at which [ratio] is highest. *)
Definition first_best {A} (ratio : A -> Q) (l : list A) (row : Z) : Prop :=
  exists (i : nat) (x : A),
    row = Z.of_nat i /\ l !! i = Some x
    /\ (forall y, y ∈ l -> Qle (ratio y) (ratio x))
    /\ forall (j : nat) (y : A),
         (j < i)%nat -> l !! j = Some y -> Qlt (ratio y) (ratio x).

(** What [_instantSearch] does before it looks at the query. *)
Definition reset_search (E : env) (pending : bool) (s : state) : state :=
  let s := set_selection_pending pending s in
  let s := set_loading_pending pending s in
  let s := timer_stop TimerSearchingLabel s in
  let s := set_label_searching false s in
  let s := if _fts_hwdphr_async E then emit FtsCancel s else s in
  let s := timer_stop TimerUpdateIndex s in
  let s := timer_stop TimerAutoFTS s in
  let s := timer_stop TimerSpellCorrection s in
  let s := set_incr_results None s in
  set_fts_results None s.

(** The calls issued between [s] and [s']. *)
Definition new_calls (s s' : state) : list call :=
  drop (length (calls s)) (calls s').

(** * Properties *)

(** ** ResultMerger *)

Lemma filter_all {A} (P : A -> Prop) `{!forall x, Decision (P x)} (l : list A) :
  (forall x, x ∈ l -> P x) -> filter P l = l.
Proof.
  induction l as [|x l IH]; intros Hall; [done|].
  rewrite filter_cons_True by (apply Hall; left).
  f_equal. apply IH. intros y Hy. apply Hall. by right.
Qed.

Lemma merge_results_both (incr full : list item) :
  merge_results (Some incr) (Some full)
  = incr ++ filter (fun it => path it ∉ map path incr) full.
Proof.
  unfold merge_results, closed_paths.
  destruct incr as [|i incr], full as [|f full]; simpl truthy; simpl tuple_of;
    cbv iota; simpl andb; cbv iota.
  - reflexivity.
  - simpl app. symmetry. apply filter_all. intros x _. apply not_elem_of_nil.
  - simpl. by rewrite app_nil_r.
  - f_equal. apply list_filter_iff. intros x.
    by rewrite elem_of_list_to_set.
Qed.

(** The selection and loading helpers leave the results alone. *)
Lemma found_items_selectItemRelative E rel s :
  found_items (selectItemRelative E rel s) = found_items s.
Proof. unfold selectItemRelative. repeat case_match; reflexivity. Qed.

Lemma found_items_loadItem row s :
  found_items (_loadItem row s) = found_items s.
Proof. unfold _loadItem. repeat case_match; reflexivity. Qed.

Lemma found_items_run_pending E s :
  found_items (run_pending E s) = found_items s.
Proof.
  unfold run_pending.
  repeat case_match; rewrite ?found_items_loadItem; simpl;
    rewrite ?found_items_selectItemRelative; reflexivity.
Qed.

Lemma found_items_restore_selection prev s :
  found_items (restore_selection prev s) = found_items s.
Proof. unfold restore_selection. repeat case_match; reflexivity. Qed.

Lemma found_items_select_shown_entry s :
  found_items (select_shown_entry s) = found_items s.
Proof. unfold select_shown_entry. repeat case_match; reflexivity. Qed.

Lemma found_items_updateIndex E s s' :
  _updateIndex E s = Ok s' ->
  found_items s' = Some (merge_results (incr_results s) (fts_results s)).
Proof.
  unfold _updateIndex. intros H.
  destruct (escape_selection _) as [prev|e]; simpl in H; [|discriminate].
  injection H as <-.
  rewrite found_items_run_pending, found_items_select_shown_entry,
    found_items_restore_selection.
  unfold rebuild_list, arm_spell_correction. simpl.
  by destruct (spell_check_due s).
Qed.

Lemma occurrences_app p l1 l2 :
  occurrences p (l1 ++ l2) = (occurrences p l1 + occurrences p l2)%nat.
Proof. unfold occurrences. by rewrite filter_app, length_app. Qed.

Lemma occurrences_zero p l : p ∉ map path l -> occurrences p l = 0%nat.
Proof.
  unfold occurrences. induction l as [|x l IH]; intros Hp; [done|].
  rewrite filter_cons_False.
  - apply IH. intros Hin. apply Hp. simpl. by right.
  - intros Heq. apply Hp. simpl. rewrite <- Heq. left.
Qed.

Lemma occurrences_NoDup p l :
  NoDup (map path l) -> p ∈ map path l -> occurrences p l = 1%nat.
Proof.
  induction l as [|x l IH]; intros Hnd Hp; [by inversion Hp|].
  simpl in Hnd. apply NoDup_cons in Hnd as [Hx Hnd].
  change (x :: l) with ([x] ++ l). rewrite occurrences_app.
  destruct (decide (path x = p)) as [<-|Hne].
  - rewrite (occurrences_zero _ l Hx). unfold occurrences.
    by rewrite filter_cons_True.
  - rewrite IH; [|done|].
    + unfold occurrences. by rewrite filter_cons_False.
    + simpl in Hp. apply elem_of_cons in Hp as [?|?]; [congruence|done].
Qed.

(** C1. For two present result tuples, the committed list is [incr]
    followed by the items of [full] whose path is not a path of [incr]:
    [incr] keeps its place and order, the rest keeps the order of
    [full], no item of the rest repeats a path of [incr] (so the number
    of items with such a path is the number [incr] has, which is one
    when the paths of [incr] are distinct, as they are within one index),
    and this is the list that [_updateIndex] stores. *)
Theorem merge_incr_then_new_full (incr full : list item) :
  let merged := merge_results (Some incr) (Some full) in
  merged = incr ++ filter (fun it => path it ∉ map path incr) full
  /\ take (length incr) merged = incr
  /\ (forall (i : nat) it, incr !! i = Some it -> merged !! i = Some it)
  /\ sublist (drop (length incr) merged) full
  /\ (forall it, it ∈ full ->
        (it ∈ drop (length incr) merged <-> path it ∉ map path incr))
  /\ (forall p, p ∈ map path incr -> occurrences p merged = occurrences p incr)
  /\ (NoDup (map path incr) ->
      forall it, it ∈ incr -> path it ∈ map path full ->
        occurrences (path it) merged = 1%nat)
  /\ (forall E s s',
        incr_results s = Some incr -> fts_results s = Some full ->
        _updateIndex E s = Ok s' -> found_items s' = Some merged).
Proof.
  intros merged. subst merged. rewrite merge_results_both.
  set (rest := filter _ full).
  assert (Hocc : forall p, p ∈ map path incr ->
            occurrences p (incr ++ rest) = occurrences p incr).
  { intros p Hp. rewrite occurrences_app, (occurrences_zero p rest); [lia|].
    intros Hin. apply list_elem_of_fmap in Hin as (it & -> & Hit).
    apply list_elem_of_filter in Hit as [Hnot _]. by apply Hnot. }
  split; [reflexivity|].
  split; [by rewrite take_app_length|].
  split; [intros i it Hi; by apply lookup_app_l_Some|].
  split; [rewrite drop_app_length; apply sublist_filter|].
  split.
  { intros it Hit. rewrite drop_app_length. unfold rest.
    rewrite list_elem_of_filter. tauto. }
  split; [exact Hocc|].
  split.
  { intros Hnd it Hit _. rewrite Hocc.
    - apply occurrences_NoDup; [done|]. apply list_elem_of_fmap. eauto.
    - apply list_elem_of_fmap. eauto. }
  intros E s s' Hi Hf Hup. apply found_items_updateIndex in Hup.
  by rewrite Hup, Hi, Hf, merge_results_both.
Qed.

Lemma merge_incr_then_new_full_witness :
  let incr := [entry "cat" 0; entry "catch" 0] in
  let full := [entry "catch" 1; entry "scatter" 0] in
  NoDup (map path incr)
  /\ merge_results (Some incr) (Some full)
     = [entry "cat" 0; entry "catch" 0; entry "scatter" 0]
  /\ occurrences (path (entry "catch" 0)) (merge_results (Some incr) (Some full))
     = 1%nat.
Proof.
  intros incr full.
  assert (Hnd : NoDup (map path incr)).
  { compute_done. }
  destruct (merge_incr_then_new_full incr full)
    as (Heq & _ & _ & _ & _ & _ & Hone & _).
  split; [exact Hnd|]. split.
  - rewrite Heq. vm_compute. reflexivity.
  - apply (Hone Hnd).
    + compute_done.
    + compute_done.
Defined.

(** ** Rows *)

Lemma find_row_from_Some {A} (p : A -> bool) (l : list A) (row r : Z) :
  find_row_from p row l = Some r -> first_row p l (r - row).
Proof.
  revert row. induction l as [|x l IH]; intros row Hf; [discriminate|].
  simpl in Hf. destruct (p x) eqn:Hpx.
  - injection Hf as <-. exists 0%nat, x. repeat split; [lia|done|lia].
  - destruct (IH _ Hf) as (i & y & Hr & Hi & Hy & Hfirst).
    exists (S i), y. repeat split; [lia|done|done|].
    intros [|j] z Hj Hz; simpl in Hz; [congruence|].
    apply (Hfirst j); [lia|done].
Qed.

Lemma find_row_from_None {A} (p : A -> bool) (l : list A) (row : Z) :
  find_row_from p row l = None <-> forall x, x ∈ l -> p x = false.
Proof.
  revert row. induction l as [|x l IH]; intros row; simpl.
  - split; [|done]. intros _ x Hx. by apply elem_of_nil in Hx.
  - destruct (p x) eqn:Hpx.
    + split; [done|]. intros Hall. rewrite Hall in Hpx; [done|left].
    + rewrite IH. split.
      * intros Hall y Hy. apply elem_of_cons in Hy as [->|Hy]; auto.
      * intros Hall y Hy. apply Hall. by right.
Qed.

Lemma find_row_Some {A} (p : A -> bool) (l : list A) (r : Z) :
  find_row p l = Some r -> first_row p l r.
Proof.
  intros Hf. apply find_row_from_Some in Hf. by rewrite Z.sub_0_r in Hf.
Qed.

Lemma first_row_bounds {A} (p : A -> bool) (l : list A) (r : Z) :
  first_row p l r -> 0 <= r < len l.
Proof.
  intros (i & x & -> & Hi & _). apply lookup_lt_Some in Hi. unfold len. lia.
Qed.

Lemma first_row_unique {A} (p : A -> bool) (l : list A) (r1 r2 : Z) :
  first_row p l r1 -> first_row p l r2 -> r1 = r2.
Proof.
  intros (i & x & -> & Hi & Hx & Hfi) (j & y & -> & Hj & Hy & Hfj).
  destruct (Nat.lt_trichotomy i j) as [Hlt|[->|Hlt]]; [|done|].
  - rewrite (Hfj i x Hlt Hi) in Hx. discriminate.
  - rewrite (Hfi j y Hlt Hj) in Hy. discriminate.
Qed.

Lemma find_row_exists {A} (p : A -> bool) (l : list A) (x : A) :
  x ∈ l -> p x = true -> exists r, find_row p l = Some r.
Proof.
  intros Hx Hp. destruct (find_row p l) as [r|] eqn:Hf; [eauto|].
  unfold find_row in Hf. rewrite find_row_from_None in Hf.
  rewrite (Hf x Hx) in Hp. discriminate.
Qed.

(** ** Relative selection *)

(** C10. With a non-empty list shown, a current row [r] and the focus
    away from the query box, [selectItemRelative(rel)] leaves the current
    row at [max(0, min(len - 1, r + rel))], which is a row of the list
    for every [rel]; when that is [r] itself nothing is touched. *)
Theorem selectItemRelative_clamps (E : env) (rel : Z) (s : state)
    (items : list item) (r : Z) :
  found_items s = Some items -> items <> [] ->
  list_rows s = length items ->
  current_row s = r -> r <> -1 -> line_focus s = false ->
  let row := Z.max 0 (Z.min (len items - 1) (r + rel)) in
  current_row (selectItemRelative E rel s) = row
  /\ 0 <= row < len items
  /\ (row = r -> selectItemRelative E rel s = s).
Proof.
  intros Hitems Hne Hrows Hr Hsel Hfocus row.
  assert (Hlen : 0 < len items).
  { unfold len. destruct items; [done|simpl; lia]. }
  assert (Hrow : 0 <= row < len items) by (subst row; lia).
  unfold selectItemRelative. rewrite Hitems. simpl tuple_of.
  destruct items as [|it items]; [done|]. simpl truthy. cbv iota.
  simpl negb. cbv iota. rewrite Hfocus, Hr.
  destruct (Z.eqb_spec r (-1)) as [?|_]; [done|]. simpl orb. cbv iota.
  fold row. destruct (Z.eqb_spec row r) as [Heq|Hneq]; simpl negb; cbv iota.
  - repeat split; [congruence|lia|lia].
  - repeat split; [|lia|lia|done].
    unfold list_setCurrentRow, list_setFocus. simpl. rewrite Hrows.
    unfold len in Hrow.
    destruct (Z.leb_spec 0 row); [|lia].
    destruct (Z.ltb_spec row (Z.of_nat (length (it :: items)))); [done|lia].
Qed.

Lemma selectItemRelative_clamps_witness :
  let items := [entry "cat" 0; entry "catch" 0; entry "cater" 0] in
  let s := set_current_row 1 (set_list_rows 3 (set_found_items (Some items) init_state)) in
  current_row (selectItemRelative (demo_env []) 5 s) = 2
  /\ selectItemRelative (demo_env []) 0 s = s.
Proof.
  intros items s.
  destruct (selectItemRelative_clamps (demo_env []) 5 s items 1)
    as (Hrow & _ & _); [reflexivity|discriminate|reflexivity|reflexivity|lia|reflexivity|].
  destruct (selectItemRelative_clamps (demo_env []) 0 s items 1)
    as (_ & _ & Hsame); [reflexivity|discriminate|reflexivity|reflexivity|lia|reflexivity|].
  split; [exact Hrow|]. apply Hsame. reflexivity.
Defined.

(** ** Selection across a commit *)

Lemma current_row_loadItem row s :
  current_row (_loadItem row s) = current_row s.
Proof. unfold _loadItem. repeat case_match; reflexivity. Qed.

Lemma list_setCurrentRow_in_range row s :
  0 <= row < Z.of_nat (list_rows s) ->
  current_row (list_setCurrentRow row s) = row.
Proof.
  intros Hrow. unfold list_setCurrentRow. simpl.
  destruct (Z.leb_spec 0 row); [|lia].
  destruct (Z.ltb_spec row (Z.of_nat (list_rows s))); [done|lia].
Qed.

Lemma restore_selection_rebuild (s : state) (prev : item) :
  let L := merge_results (incr_results s) (fts_results s) in
  let same := fun it => bool_decide (comparer it = comparer prev) in
  let s1 := restore_selection (Some prev) (rebuild_list s) in
  match find_row same L with
  | Some row => current_row s1 = row /\ first_row same L row
  | None => current_row s1 = -1
  end.
Proof.
  intros L same s1. subst s1. unfold restore_selection.
  assert (Hfi : found_items (rebuild_list s) = Some L) by reflexivity.
  assert (Hrows : list_rows (rebuild_list s) = length L) by reflexivity.
  assert (Hcur : current_row (rebuild_list s) = -1) by reflexivity.
  rewrite Hfi. simpl tuple_of. fold same.
  destruct (find_row same L) as [row|] eqn:Hf; [|exact Hcur].
  pose proof (find_row_Some _ _ _ Hf) as Hfirst. split; [|done].
  apply list_setCurrentRow_in_range. rewrite Hrows.
  apply first_row_bounds in Hfirst. unfold len in Hfirst. lia.
Qed.

Lemma escape_selection_arm s :
  escape_selection (arm_spell_correction s) = escape_selection s.
Proof. unfold arm_spell_correction. by destruct (spell_check_due s). Qed.

Lemma restore_rebuild_arm prev s :
  current_row (restore_selection prev (rebuild_list (arm_spell_correction s)))
  = current_row (restore_selection prev (rebuild_list s)).
Proof.
  destruct prev as [prev|].
  - pose proof (restore_selection_rebuild s prev) as H1.
    pose proof (restore_selection_rebuild (arm_spell_correction s) prev) as H2.
    cbv zeta in H1, H2.
    assert (HL : merge_results (incr_results (arm_spell_correction s))
                   (fts_results (arm_spell_correction s))
                 = merge_results (incr_results s) (fts_results s)).
    { unfold arm_spell_correction. by destruct (spell_check_due s). }
    rewrite HL in H2.
    destruct (find_row _ _) as [row|]; [|congruence].
    destruct H1 as [-> _], H2 as [-> _]. reflexivity.
  - unfold arm_spell_correction. by destruct (spell_check_due s).
Qed.

Lemma select_shown_entry_not_listed s L :
  found_items s = Some L ->
  (forall it, it ∈ L -> str "dict:" ++ path it <> web_url s) ->
  select_shown_entry s = s.
Proof.
  intros Hfi Hurl. unfold select_shown_entry. rewrite Hfi. simpl tuple_of.
  destruct (find_row _ L) as [row|] eqn:Hf; [|reflexivity].
  apply find_row_Some in Hf as (i & x & _ & Hi & Hx & _).
  apply list_elem_of_lookup_2 in Hi. apply bool_decide_eq_true in Hx.
  by destruct (Hurl x Hi).
Qed.

Lemma run_pending_current_row E s :
  selection_pending s = false ->
  current_row (run_pending E s) = current_row s.
Proof.
  intros Hp. unfold run_pending. rewrite Hp.
  destruct (loading_pending s); [|done]. by rewrite current_row_loadItem.
Qed.

Lemma restore_rebuild_arm_fields prev s :
  let s2 := restore_selection prev (rebuild_list (arm_spell_correction s)) in
  found_items s2 = Some (merge_results (incr_results s) (fts_results s))
  /\ web_url s2 = web_url s
  /\ selection_pending s2 = selection_pending s.
Proof.
  unfold restore_selection, rebuild_list, arm_spell_correction.
  repeat case_match; done.
Qed.

(** C8. After the list is rebuilt as [L], restoring a previous selection
    [prev] makes current the first row of [L] whose
    [(sortkey, prio, path)] equals that of [prev], wherever it now is;
    when no row of [L] has that triple the step selects nothing (the
    current row stays [-1], not [0]). When the entry shown in the content
    view is not listed and no selection is pending, that is the row the
    commit ends with. *)
Theorem selection_restored_at_first_match (E : env) (s : state) (prev : item) :
  let L := merge_results (incr_results s) (fts_results s) in
  let same := fun it => bool_decide (comparer it = comparer prev) in
  let s1 := restore_selection (Some prev) (rebuild_list s) in
  (forall it, it ∈ L -> comparer it = comparer prev ->
     first_row same L (current_row s1))
  /\ ((forall it, it ∈ L -> comparer it <> comparer prev) ->
      current_row s1 = -1)
  /\ (escape_selection s = Ok (Some prev) ->
      (forall it, it ∈ L -> str "dict:" ++ path it <> web_url s) ->
      selection_pending s = false ->
      exists s', _updateIndex E s = Ok s' /\ current_row s' = current_row s1).
Proof.
  intros L same s1.
  assert (Hres : match find_row same L with
                 | Some row => current_row s1 = row /\ first_row same L row
                 | None => current_row s1 = -1
                 end) by apply restore_selection_rebuild.
  split; [|split].
  - intros it Hit Heq.
    destruct (find_row_exists same L it Hit) as [row Hrow].
    { unfold same. by apply bool_decide_eq_true. }
    rewrite Hrow in Hres. destruct Hres as [-> Hfirst]. exact Hfirst.
  - intros Hnone. destruct (find_row same L) as [row|] eqn:Hf; [|done].
    destruct Hres as [_ (i & x & _ & Hi & Hx & _)].
    apply list_elem_of_lookup_2 in Hi. unfold same in Hx.
    apply bool_decide_eq_true in Hx. by destruct (Hnone x Hi).
  - intros Hesc Hurl Hpend. unfold _updateIndex.
    rewrite escape_selection_arm, Hesc. unfold bind.
    eexists. split; [reflexivity|].
    destruct (restore_rebuild_arm_fields (Some prev) s) as (Hfi & Hw & Hsp).
    rewrite (select_shown_entry_not_listed _ L); [|done|by rewrite Hw].
    rewrite run_pending_current_row by congruence.
    apply restore_rebuild_arm.
Qed.

Lemma selection_restored_at_first_match_witness :
  let old := [entry "cat" 0; entry "catch" 0] in
  let new := [entry "ca" 0; entry "cab" 0; entry "catch" 0] in
  let s := set_incr_results (Some new)
             (set_current_row 1 (set_list_rows 2
                (set_found_items (Some old) init_state))) in
  let same := fun it => bool_decide (comparer it = comparer (entry "catch" 0)) in
  first_row same new
    (current_row (restore_selection (Some (entry "catch" 0)) (rebuild_list s)))
  /\ exists s', _updateIndex (demo_env []) s = Ok s' /\ current_row s' = 2.
Proof.
  intros old new s same.
  destruct (selection_restored_at_first_match (demo_env []) s (entry "catch" 0))
    as (Hfirst & _ & Hcommit).
  split.
  - apply (Hfirst (entry "catch" 0)); [compute_done|reflexivity].
  - destruct Hcommit as (s' & Hs' & Hrow);
      [reflexivity|intros it Hit; vm_compute; discriminate|reflexivity|].
    exists s'. split; [exact Hs'|]. rewrite Hrow. reflexivity.
Defined.

(** ** The list widget stays in step with the found items *)

Lemma list_in_sync_init : list_in_sync init_state.
Proof. split; simpl; [reflexivity|lia]. Qed.

Lemma list_in_sync_setCurrentRow row s :
  list_rows s = length (tuple_of (found_items s)) ->
  list_in_sync (list_setCurrentRow row s).
Proof.
  intros Hrows. split; [exact Hrows|]. unfold list_setCurrentRow. simpl.
  destruct (Z.leb_spec 0 row); simpl; [|lia].
  destruct (Z.ltb_spec row (Z.of_nat (list_rows s))); lia.
Qed.

Lemma list_in_sync_selectItemRelative E rel s :
  list_in_sync s -> list_in_sync (selectItemRelative E rel s).
Proof.
  intros Hs. unfold selectItemRelative.
  repeat case_match; try exact Hs;
    apply list_in_sync_setCurrentRow; apply Hs.
Qed.

Lemma list_in_sync_loadItem row s :
  list_in_sync s -> list_in_sync (_loadItem row s).
Proof. intros Hs. unfold _loadItem. repeat case_match; exact Hs. Qed.

Lemma list_in_sync_rebuild s : list_in_sync (rebuild_list s).
Proof. split; simpl; [reflexivity|lia]. Qed.

Lemma escape_selection_in_sync s :
  list_in_sync s -> exists prev, escape_selection s = Ok prev.
Proof.
  intros [Hrows Hrow]. unfold escape_selection.
  destruct (Z.eqb_spec (current_row s) (-1)); [eauto|].
  destruct (found_items s) as [items|]; simpl in Hrows.
  - unfold getitem, len. rewrite <- Hrows.
    destruct (Z.ltb_spec (current_row s) 0); [lia|].
    destruct (Z.ltb_spec (current_row s) 0); [lia|].
    destruct (nth_error items (Z.to_nat (current_row s))) eqn:Hn; simpl; [eauto|].
    apply nth_error_None in Hn. lia.
  - lia.
Qed.

Lemma updateIndex_in_sync E s :
  list_in_sync s ->
  exists s', _updateIndex E s = Ok s' /\ list_in_sync s'.
Proof.
  intros Hs. unfold _updateIndex. rewrite escape_selection_arm.
  destruct (escape_selection_in_sync s Hs) as [prev ->]. unfold bind.
  eexists. split; [reflexivity|].
  assert (H2 : list_in_sync
                 (restore_selection prev (rebuild_list (arm_spell_correction s)))).
  { unfold restore_selection. repeat case_match;
      try apply list_in_sync_setCurrentRow; try apply list_in_sync_rebuild. }
  assert (H3 : forall s2, list_in_sync s2 -> list_in_sync (select_shown_entry s2)).
  { intros s2 Hs2. unfold select_shown_entry. case_match; [|done].
    apply list_in_sync_setCurrentRow, Hs2. }
  unfold run_pending.
  repeat case_match; try apply list_in_sync_loadItem;
    try apply list_in_sync_selectItemRelative; by apply H3.
Qed.

Lemma incremental_search_frame E key s r s' :
  _incremental_search E key s = Ok (r, s') ->
  found_items s' = found_items s /\ list_rows s' = list_rows s
  /\ current_row s' = current_row s.
Proof.
  unfold _incremental_search. intros H.
  repeat case_match; simplify_eq; done.
Qed.

Lemma instantSearch_frame E pending delay s s' :
  _instantSearch E pending delay s = Ok s' ->
  found_items s' = found_items s /\ list_rows s' = list_rows s
  /\ current_row s' = current_row s.
Proof.
  unfold _instantSearch. intros H.
  destruct (line_text s) as [|c q].
  { simplify_eq. simpl. by destruct (_fts_hwdphr_async E). }
  destruct (negb (contains_wild (c :: q))).
  - destruct (_incremental_search _ _ _) as [[r s1]|e] eqn:Hs; [|done].
    apply incremental_search_frame in Hs as (H1 & H2 & H3).
    unfold bind in H. destruct r as [results|]; [|simplify_eq].
    + destruct (if delay then _ else _); simplify_eq.
      simpl. rewrite H1, H2, H3. by destruct (_fts_hwdphr_async E).
    + simpl. rewrite H1, H2, H3. by destruct (_fts_hwdphr_async E).
  - unfold bind in H. destruct (if delay then _ else _); simplify_eq.
    simpl. by destruct (_fts_hwdphr_async E).
Qed.

Lemma step_in_sync E ev s s' :
  list_in_sync s -> step E ev s = Ok s' -> list_in_sync s'.
Proof.
  intros Hs Hstep. destruct ev as [text|t|r| |rel| |phrase filters only_web|b|url];
    simpl in Hstep.
  - apply instantSearch_frame in Hstep as (H1 & H2 & H3).
    destruct Hs as [Hr Hc]. split; rewrite ?H1, ?H2, ?H3; simpl; done.
  - destruct (timers s t); [|by simplify_eq].
    destruct t; simpl in Hstep.
    + destruct (updateIndex_in_sync E (timer_stop TimerUpdateIndex s) Hs)
        as (s2 & Hs2 & Hsync). congruence.
    + unfold _onTimerAutoFullSearchTimeout in Hstep.
      repeat case_match; simplify_eq; exact Hs.
    + unfold _onTimerSpellCorrection in Hstep.
      repeat case_match; simplify_eq; exact Hs.
    + simplify_eq. exact Hs.
  - simplify_eq. unfold _onAsyncFTSearchFinished.
    repeat case_match; exact Hs.
  - simplify_eq. exact Hs.
  - simplify_eq. by apply list_in_sync_selectItemRelative.
  - simplify_eq. by apply list_in_sync_loadItem.
  - simplify_eq. unfold fullSearch. case_match; exact Hs.
  - simplify_eq. exact Hs.
  - simplify_eq. exact Hs.
Qed.

(** Every state the loop reaches from the initial one is in step. *)
Lemma run_in_sync E evs s s' :
  list_in_sync s -> run E evs s = Ok s' -> list_in_sync s'.
Proof.
  revert s. induction evs as [|ev evs IH]; intros s Hs Hrun; simpl in Hrun.
  - by simplify_eq.
  - destruct (step E ev s) as [s1|e] eqn:Hstep; [|done].
    simpl in Hrun. eapply IH; [|exact Hrun]. by eapply step_in_sync.
Qed.

(** ** Search entry point *)

Lemma new_calls_app s s' l : calls s' = calls s ++ l -> new_calls s s' = l.
Proof. intros H. unfold new_calls. rewrite H. apply drop_app_length. Qed.

Lemma calls_timer_start t msec s :
  calls (timer_start t msec s) = calls s ++ [TimerStart t msec].
Proof. reflexivity. Qed.

Lemma timers_timer_start t msec s t' :
  timers (timer_start t msec s) t'
  = if decide (t' = t) then Some msec else timers s t'.
Proof. reflexivity. Qed.

Lemma reset_search_calls E pending s :
  calls (reset_search E pending s)
  = calls s ++ (if _fts_hwdphr_async E then [FtsCancel] else []).
Proof.
  unfold reset_search. destruct (_fts_hwdphr_async E); simpl; [done|].
  by rewrite app_nil_r.
Qed.

Lemma reset_search_timers E pending s t :
  timers (reset_search E pending s) t = None.
Proof.
  unfold reset_search. destruct (_fts_hwdphr_async E), t; reflexivity.
Qed.

Lemma run_pending_empty E s2 :
  found_items s2 = Some [] ->
  found_items (run_pending E s2) = Some []
  /\ list_rows (run_pending E s2) = list_rows s2
  /\ calls (run_pending E s2) = calls s2
  /\ timers (run_pending E s2) = timers s2.
Proof.
  intros H2. unfold run_pending.
  assert (Hsel : forall s3, found_items s3 = Some [] ->
            selectItemRelative E 0 s3 = set_selection_pending true s3).
  { intros s3 H3. unfold selectItemRelative. by rewrite H3. }
  assert (Hload : forall s3, found_items s3 = Some [] ->
            _loadItem None s3 = set_loading_pending true s3).
  { intros s3 H3. unfold _loadItem. by rewrite H3. }
  destruct (selection_pending s2) eqn:Hsp.
  - rewrite Hsel by exact H2. simpl.
    destruct (loading_pending s2); [rewrite Hload by exact H2|]; done.
  - destruct (loading_pending s2); [rewrite Hload by exact H2|]; done.
Qed.

(** After an empty merge the commit only rebuilds the (empty) list. *)
Lemma commit_empty E s1 prev :
  found_items (rebuild_list s1) = Some [] ->
  let s2 := run_pending E
              (select_shown_entry (restore_selection prev (rebuild_list s1))) in
  found_items s2 = Some [] /\ list_rows s2 = 0%nat
  /\ calls s2 = calls s1 /\ timers s2 = timers s1.
Proof.
  intros Hf.
  assert (Hrs : restore_selection prev (rebuild_list s1) = rebuild_list s1).
  { unfold restore_selection. rewrite Hf. by destruct prev. }
  assert (Hsh : select_shown_entry (rebuild_list s1) = rebuild_list s1).
  { unfold select_shown_entry. by rewrite Hf. }
  rewrite Hrs, Hsh.
  destruct (run_pending_empty E _ Hf) as (H1 & H2 & H3 & H4).
  cbv zeta. rewrite H1, H2, H3, H4.
  assert (Hlen : length (merge_results (incr_results s1) (fts_results s1)) = 0%nat).
  { change (found_items (rebuild_list s1))
      with (Some (merge_results (incr_results s1) (fts_results s1))) in Hf.
    injection Hf as ->. reflexivity. }
  repeat split. unfold rebuild_list. simpl. by rewrite Hlen.
Qed.

(** C3, as the code has it. With an empty query box [_instantSearch]
    asks neither backend for anything (it only cancels a full-text
    request that may be in flight) and arms exactly one timer, the commit
    timer, with delay 0; every other timer is left disarmed. When that
    timer fires the commit stores the empty list, arms no timer and
    issues no request. *)
Theorem empty_query_commits_empty_list (E : env) (pending delay : bool)
    (s : state) :
  line_text s = [] ->
  exists s1,
    _instantSearch E pending delay s = Ok s1
    /\ new_calls s s1
       = (if _fts_hwdphr_async E then [FtsCancel] else [])
         ++ [TimerStart TimerUpdateIndex 0]
    /\ (forall t, timers s1 t
                  = if decide (t = TimerUpdateIndex) then Some 0 else None)
    /\ incr_results s1 = None /\ fts_results s1 = None
    /\ (list_in_sync s ->
        exists s2,
          step E (Timeout TimerUpdateIndex) s1 = Ok s2
          /\ found_items s2 = Some []
          /\ list_rows s2 = 0%nat
          /\ new_calls s1 s2 = []
          /\ forall t, timers s2 t = None).
Proof.
  intros Hq. unfold _instantSearch. rewrite Hq.
  change (exists s1,
    Ok (timer_start TimerUpdateIndex 0 (reset_search E pending s)) = Ok s1
    /\ new_calls s s1
       = (if _fts_hwdphr_async E then [FtsCancel] else [])
         ++ [TimerStart TimerUpdateIndex 0]
    /\ (forall t, timers s1 t
                  = if decide (t = TimerUpdateIndex) then Some 0 else None)
    /\ incr_results s1 = None /\ fts_results s1 = None
    /\ (list_in_sync s ->
        exists s2,
          step E (Timeout TimerUpdateIndex) s1 = Ok s2
          /\ found_items s2 = Some []
          /\ list_rows s2 = 0%nat
          /\ new_calls s1 s2 = []
          /\ forall t, timers s2 t = None)).
  set (s0 := reset_search E pending s).
  exists (timer_start TimerUpdateIndex 0 s0).
  split; [reflexivity|]. split.
  { apply new_calls_app. rewrite calls_timer_start. subst s0.
    rewrite reset_search_calls. by rewrite <- app_assoc. }
  split.
  { intros t. rewrite timers_timer_start.
    destruct (decide (t = TimerUpdateIndex)); [done|].
    apply reset_search_timers. }
  split; [reflexivity|]. split; [reflexivity|].
  intros Hsync. simpl step.
  destruct (decide (TimerUpdateIndex = TimerUpdateIndex)); [|done].
  set (s1 := timer_stop _ _).
  assert (Hs1 : list_in_sync s1).
  { destruct Hsync as [Hr Hc]. split; simpl; subst s0.
    - unfold reset_search. by destruct (_fts_hwdphr_async E).
    - unfold reset_search. by destruct (_fts_hwdphr_async E). }
  unfold _updateIndex.
  assert (Harm : arm_spell_correction s1 = s1) by reflexivity.
  rewrite Harm.
  destruct (escape_selection_in_sync s1 Hs1) as [prev ->]. unfold bind.
  eexists. split; [reflexivity|].
  destruct (commit_empty E s1 prev eq_refl) as (Hf' & Hl' & Hc' & Ht').
  split; [exact Hf'|]. split; [exact Hl'|]. split.
  { unfold new_calls. rewrite Hc'. simpl. apply drop_all. }
  intros t. rewrite Ht'. subst s1 s0. unfold reset_search.
  destruct (_fts_hwdphr_async E), t; reflexivity.
Qed.

Lemma empty_query_commits_empty_list_witness :
  exists s1 s2,
    _instantSearch (demo_env []) false true init_state = Ok s1
    /\ timers s1 TimerUpdateIndex = Some 0
    /\ step (demo_env []) (Timeout TimerUpdateIndex) s1 = Ok s2
    /\ found_items s2 = Some [].
Proof.
  destruct (empty_query_commits_empty_list (demo_env []) false true init_state)
    as (s1 & Hs1 & _ & Ht & _ & _ & Hcommit); [reflexivity|].
  destruct (Hcommit list_in_sync_init) as (s2 & Hs2 & Hf & _).
  exists s1, s2. split; [exact Hs1|]. split; [apply Ht|]. split; assumption.
Defined.

(** C3, as the specification words it, fails: the empty query does arm a
    timer. *)
Lemma empty_query_arms_a_timer :
  ~ (forall (E : env) (pending delay : bool) (s s1 : state),
       line_text s = [] ->
       _instantSearch E pending delay s = Ok s1 ->
       (forall t, timers s1 t = None)
       /\ (forall t msec, TimerStart t msec ∉ new_calls s s1)).
Proof.
  intros H.
  destruct (H (demo_env []) false true init_state
              (timer_start TimerUpdateIndex 0 (reset_search (demo_env []) false init_state))
              eq_refl eq_refl) as [Ht _].
  specialize (Ht TimerUpdateIndex). discriminate Ht.
Qed.

Lemma contains_elem_of (query : pystr) (c : N) :
  contains query c = true <-> c ∈ query.
Proof.
  unfold contains. rewrite existsb_exists. split.
  - intros (x & Hx & Heq). apply N.eqb_eq in Heq. subst.
    by apply list_elem_of_In.
  - intros Hc. exists c. split; [by apply list_elem_of_In|apply N.eqb_refl].
Qed.

Lemma contains_wild_iff (query : pystr) :
  contains_wild query = true <-> 42%N ∈ query \/ 63%N ∈ query.
Proof.
  unfold contains_wild. simpl. rewrite orb_false_r, orb_true_iff.
  by rewrite !contains_elem_of.
Qed.

Lemma itemtypes_wild (query : pystr) :
  existsb (contains query) (str "?*") = contains_wild query.
Proof. unfold contains_wild. simpl. rewrite !orb_false_r. apply orb_comm. Qed.

Lemma incr_delay_zero : _incr_delay_func 0 = Ok 30.
Proof. vm_compute. reflexivity. Qed.

(** C4. For a query with ['*'] (42) or ['?'] (63) in it, [_instantSearch]
    does not call the incremental index: it arms the full-text timer and
    the commit timer only; when the full-text timer fires, the one
    request made is [update_query] on the full-text client, for this
    query, with [itemtypes = ("hm",)], the limit [_FTS_HWDPHR_LIMIT + 1]
    and [merge = True] (and nothing at all when there is no full-text
    index). *)
Theorem wildcard_query_is_fulltext_only (E : env) (pending delay : bool)
    (s : state) (query : pystr) :
  line_text s = query ->
  42%N ∈ query \/ 63%N ∈ query ->
  exists s1 s2,
    _instantSearch E pending delay s = Ok s1
    /\ new_calls s s1
       = (if _fts_hwdphr_async E then [FtsCancel] else [])
         ++ [TimerStart TimerAutoFTS 0;
             TimerStart TimerUpdateIndex (if delay then 30 else 0)]
    /\ (forall key limit, IncrementalSearch key limit ∉ new_calls s s1)
    /\ step E (Timeout TimerAutoFTS) s1 = Ok s2
    /\ new_calls s1 s2
       = if _fts_hwdphr_async E
         then [TimerStart TimerSearchingLabel 200;
               FtsUpdateQuery (Some query) None [str "hm"]
                 (Some (_FTS_HWDPHR_LIMIT + 1)) true]
         else [].
Proof.
  intros Hq Hwild. apply contains_wild_iff in Hwild.
  assert (Hne : exists c q, query = c :: q).
  { destruct query as [|c q]; [discriminate|eauto]. }
  destruct Hne as (c & q & Hcq).
  unfold _instantSearch. rewrite Hq, Hcq, <- Hcq, Hwild. simpl negb. cbv iota.
  unfold bind at 1. cbv beta iota. fold (reset_search E pending s).
  set (s0 := reset_search E pending s).
  assert (Hd : (if delay then _incr_delay_func (len (@nil item)) else Ok 0)
               = Ok (if delay then 30 else 0)).
  { destruct delay; [exact incr_delay_zero|reflexivity]. }
  rewrite Hd. unfold bind.
  set (s1 := timer_start TimerUpdateIndex _ _).
  assert (Hc1 : calls s1 = calls s
            ++ (if _fts_hwdphr_async E then [FtsCancel] else [])
            ++ [TimerStart TimerAutoFTS 0;
                TimerStart TimerUpdateIndex (if delay then 30 else 0)]).
  { subst s1. rewrite calls_timer_start, calls_timer_start.
    change (calls (set_auto_fts_phrase (Some query)
                     (set_incr_results (Some []) s0))) with (calls s0).
    subst s0. rewrite reset_search_calls. by rewrite <- !app_assoc. }
  assert (Hn1 : new_calls s s1
            = (if _fts_hwdphr_async E then [FtsCancel] else [])
              ++ [TimerStart TimerAutoFTS 0;
                  TimerStart TimerUpdateIndex (if delay then 30 else 0)])
    by (by apply new_calls_app).
  assert (Ht1 : timers s1 TimerAutoFTS = Some 0) by reflexivity.
  assert (Hp1 : auto_fts_phrase s1 = Some query) by reflexivity.
  assert (Hno : forall key limit, IncrementalSearch key limit ∉ new_calls s s1).
  { intros key limit. rewrite Hn1. intros Hin.
    destruct (_fts_hwdphr_async E);
      repeat (apply elem_of_cons in Hin as [Hin|Hin]; [discriminate|]);
      by apply elem_of_nil in Hin. }
  set (s2 := if _fts_hwdphr_async E
             then emit (FtsUpdateQuery (Some query) None [str "hm"]
                          (Some (_FTS_HWDPHR_LIMIT + 1)) true)
                    (timer_start TimerSearchingLabel 200
                       (timer_stop TimerAutoFTS s1))
             else timer_stop TimerAutoFTS s1).
  assert (Hstep : step E (Timeout TimerAutoFTS) s1 = Ok s2).
  { unfold step. rewrite Ht1.
    unfold timer_slot, _onTimerAutoFullSearchTimeout.
    change (auto_fts_phrase (timer_stop TimerAutoFTS s1))
      with (auto_fts_phrase s1).
    rewrite Hp1, itemtypes_wild, Hwild. subst s2.
    by destruct (_fts_hwdphr_async E). }
  exists s1, s2. split; [reflexivity|]. split; [exact Hn1|].
  split; [exact Hno|]. split; [exact Hstep|].
  apply new_calls_app. subst s2.
  destruct (_fts_hwdphr_async E); simpl; [|by rewrite app_nil_r].
  by rewrite <- app_assoc.
Qed.

Lemma wildcard_query_is_fulltext_only_witness :
  let s := set_line_text (str "examp*e") init_state in
  exists s1 s2,
    _instantSearch (demo_env []) false true s = Ok s1
    /\ new_calls s s1
       = [FtsCancel; TimerStart TimerAutoFTS 0; TimerStart TimerUpdateIndex 30]
    /\ step (demo_env []) (Timeout TimerAutoFTS) s1 = Ok s2
    /\ new_calls s1 s2
       = [TimerStart TimerSearchingLabel 200;
          FtsUpdateQuery (Some (str "examp*e")) None [str "hm"] (Some 10001) true].
Proof.
  intros s.
  destruct (wildcard_query_is_fulltext_only (demo_env []) false true s
              (str "examp*e"))
    as (s1 & s2 & H1 & H2 & _ & H3 & H4); [reflexivity|left; compute_done|].
  exists s1, s2. repeat split; assumption.
Defined.

(** ** Full-text completion *)

(** C5, as the code has it. A completion that is not superseded stores
    the results and restarts the commit timer with delay 0, whether the
    request was a merging one or an advanced search (which also drops
    the incremental results); a superseded one changes neither results
    nor commit timer. The adaptive delay is the interval with which
    [_instantSearch] arms the commit timer once the incremental index has
    answered. *)
Theorem fulltext_completion_commits_at_once (s : state) :
  (forall merge result,
     let s' := _onAsyncFTSearchFinished (Some (merge, result)) s in
     fts_results s' = Some result
     /\ incr_results s' = (if merge then incr_results s else None)
     /\ timers s' TimerUpdateIndex = Some 0
     /\ new_calls s s' = [TimerStart TimerUpdateIndex 0])
  /\ (let s' := _onAsyncFTSearchFinished None s in
      fts_results s' = fts_results s
      /\ incr_results s' = incr_results s
      /\ timers s' TimerUpdateIndex = timers s TimerUpdateIndex
      /\ new_calls s s' = [])
  /\ (forall E pending search results c q d,
        incremental E = Some search ->
        line_text s = c :: q ->
        contains_wild (c :: q) = false ->
        search (c :: q) _INCREMENTAL_LIMIT = Ok results ->
        _incr_delay_func (len results) = Ok d ->
        exists s',
          _instantSearch E pending true s = Ok s'
          /\ incr_results s' = Some results
          /\ timers s' TimerUpdateIndex = Some d).
Proof.
  split; [|split].
  - intros merge result s'. subst s'. unfold _onAsyncFTSearchFinished.
    destruct merge; simpl; repeat split; try reflexivity;
      apply new_calls_app; reflexivity.
  - simpl. repeat split. unfold new_calls. simpl. apply drop_all.
  - intros E pending search results c q d HE Hq Hw Hs Hd.
    unfold _instantSearch. rewrite Hq, Hw. simpl negb. cbv iota.
    unfold _incremental_search. rewrite HE, Hs. unfold bind at 1.
    cbv beta iota. rewrite Hd. unfold bind.
    eexists. split; [reflexivity|]. split; reflexivity.
Qed.

Lemma fulltext_completion_commits_at_once_witness :
  let E := demo_env [entry "cat" 0] in
  let s := set_line_text (str "cat") init_state in
  exists s',
    _instantSearch E false true s = Ok s'
    /\ incr_results s' = Some [entry "cat" 0]
    /\ timers s' TimerUpdateIndex = Some 30.
Proof.
  intros E s.
  destruct (fulltext_completion_commits_at_once s) as (_ & _ & H).
  apply (H E false (fun _ _ => Ok [entry "cat" 0]) [entry "cat" 0]
           99%N (str "at") 30); reflexivity.
Defined.

(** C5, as the specification words it, fails: a merging completion does
    not wait for the adaptive delay of the incremental count. *)
Lemma fulltext_completion_ignores_adaptive_delay :
  ~ (forall (s : state) (incr result : list item) (d : Z),
       incr_results s = Some incr ->
       _incr_delay_func (len incr) = Ok d ->
       timers (_onAsyncFTSearchFinished (Some (true, result)) s)
         TimerUpdateIndex = Some d).
Proof.
  intros H.
  specialize (H (set_incr_results (Some []) init_state) [] [entry "cat" 0] 30
                eq_refl incr_delay_zero).
  discriminate H.
Qed.

(** ** Incremental index absent or broken *)

(** C7, as the code has it. [_incremental_search] returns [None] when
    there is no index handle and when [search] raises [EnvironmentError]
    or [incremental.IndexError]; any other exception of [search] reaches
    the caller. When it returns [None] for a query without wildcards,
    [_instantSearch] shows the one-line advisory once, arms only the
    commit timer (delay 0), and the commit then stores the empty list. *)
Theorem incremental_search_absent (E : env) (key : pystr) (s : state) :
  (incremental E = None -> _incremental_search E key s = Ok (None, s))
  /\ (forall search e,
        incremental E = Some search ->
        search key _INCREMENTAL_LIMIT = Raise e ->
        _incremental_search E key s
        = match e with
          | EnvironmentError | IncrementalIndexError =>
              Ok (None, emit (IncrementalSearch key _INCREMENTAL_LIMIT) s)
          | _ => Raise e
          end)
  /\ (forall search results,
        incremental E = Some search ->
        search key _INCREMENTAL_LIMIT = Ok results ->
        _incremental_search E key s
        = Ok (Some results, emit (IncrementalSearch key _INCREMENTAL_LIMIT) s))
  /\ (forall pending delay s0,
        line_text s = key -> key <> [] -> contains_wild key = false ->
        _incremental_search E key (reset_search E pending s) = Ok (None, s0) ->
        exists s1,
          _instantSearch E pending delay s = Ok s1
          /\ new_calls s0 s1
             = [WebSetHtml incremental_advisory; TimerStart TimerUpdateIndex 0]
          /\ (forall t, timers s1 t
                        = if decide (t = TimerUpdateIndex) then Some 0 else None)
          /\ (list_in_sync s ->
              exists s2,
                step E (Timeout TimerUpdateIndex) s1 = Ok s2
                /\ found_items s2 = Some []
                /\ new_calls s1 s2 = [])).
Proof.
  split; [|split; [|split]].
  - intros HE. unfold _incremental_search. by rewrite HE.
  - intros search e HE Hs. unfold _incremental_search. rewrite HE, Hs.
    by destruct e.
  - intros search results HE Hs. unfold _incremental_search. by rewrite HE, Hs.
  - intros pending delay s0 Hq Hne Hw Hsearch.
    destruct key as [|c q]; [done|].
    assert (Hfr : calls s0 = calls (reset_search E pending s)
                               ++ match incremental E with
                                  | Some _ => [IncrementalSearch (c :: q) _INCREMENTAL_LIMIT]
                                  | None => []
                                  end
                  /\ timers s0 = timers (reset_search E pending s)
                  /\ incr_results s0 = None /\ fts_results s0 = None
                  /\ found_items s0 = found_items s
                  /\ list_rows s0 = list_rows s
                  /\ current_row s0 = current_row s).
    { revert Hsearch. unfold _incremental_search.
      assert (Hrs : found_items (reset_search E pending s) = found_items s
                    /\ list_rows (reset_search E pending s) = list_rows s
                    /\ current_row (reset_search E pending s) = current_row s
                    /\ incr_results (reset_search E pending s) = None
                    /\ fts_results (reset_search E pending s) = None).
      { unfold reset_search. by destruct (_fts_hwdphr_async E). }
      destruct Hrs as (R1 & R2 & R3 & R4 & R5).
      destruct (incremental E) as [search|].
      - destruct (search _ _) as [results|e]; [discriminate|].
        destruct (caught_by_incremental_search e); [|discriminate].
        intros [= <-].
        repeat split;
          first [reflexivity|exact R1|exact R2|exact R3|exact R4|exact R5].
      - intros [= <-].
        repeat split;
          first [reflexivity|exact R1|exact R2|exact R3|exact R4|exact R5
                |symmetry; apply app_nil_r]. }
    destruct Hfr as (Hc0 & Ht0 & Hi0 & Hf0 & Hfi0 & Hlr0 & Hcr0).
    unfold _instantSearch. rewrite Hq, Hw. simpl negb. cbv iota.
    fold (reset_search E pending s). rewrite Hsearch. unfold bind.
    set (s1 := timer_start TimerUpdateIndex 0 _).
    exists s1. split; [reflexivity|]. split.
    { apply new_calls_app. subst s1. rewrite calls_timer_start.
      change (calls (emit (WebSetHtml incremental_advisory) s0))
        with (calls s0 ++ [WebSetHtml incremental_advisory]).
      by rewrite <- app_assoc. }
    split.
    { intros t. subst s1. rewrite timers_timer_start.
      destruct (decide (t = TimerUpdateIndex)); [done|].
      change (timers (emit (WebSetHtml incremental_advisory) s0) t)
        with (timers s0 t).
      rewrite Ht0. apply reset_search_timers. }
    intros Hsync. unfold step.
    assert (Ht1 : timers s1 TimerUpdateIndex = Some 0) by reflexivity.
    rewrite Ht1. unfold timer_slot.
    set (s1' := timer_stop TimerUpdateIndex s1).
    assert (Hs1 : list_in_sync s1').
    { destruct Hsync as [Hr Hc]. split; simpl; by rewrite ?Hfi0, ?Hlr0, ?Hcr0. }
    unfold _updateIndex.
    assert (Harm : arm_spell_correction s1' = s1').
    { unfold arm_spell_correction, spell_check_due.
      change (incr_results s1') with (incr_results s0). by rewrite Hi0. }
    rewrite Harm.
    destruct (escape_selection_in_sync s1' Hs1) as [prev ->]. unfold bind.
    eexists. split; [reflexivity|].
    assert (Hf : found_items (rebuild_list s1') = Some []).
    { unfold rebuild_list.
      change (incr_results s1') with (incr_results s0).
      change (fts_results s1') with (fts_results s0).
      by rewrite Hi0, Hf0. }
    destruct (commit_empty E s1' prev Hf) as (Hf' & _ & Hc' & _).
    split; [exact Hf'|].
    unfold new_calls. rewrite Hc'. apply drop_all.
Qed.

(** C7, as the specification words it, fails: a lookup failure that is
    neither an [EnvironmentError] nor an [incremental.IndexError] is
    raised to the caller. *)
Lemma incremental_search_raises_other :
  ~ (forall (E : env) (key : pystr) (s : state) search e,
       incremental E = Some search ->
       search key _INCREMENTAL_LIMIT = Raise e ->
       exists s', _incremental_search E key s = Ok (None, s')).
Proof.
  intros H.
  set (search := fun (_ : pystr) (_ : Z) =>
                   @Raise (list item) (OtherException "struct.error")).
  destruct (H (Env (Some search) None (fun k => k) ascii_lower Difflib.quick_ratio)
              (str "cat") init_state search (OtherException "struct.error")
              eq_refl eq_refl) as [s' Hs'].
  discriminate Hs'.
Qed.

Lemma incremental_search_absent_witness :
  let E := Env None None (fun key => key) ascii_lower Difflib.quick_ratio in
  let s := set_line_text (str "cat") init_state in
  exists s1 s2,
    _instantSearch E false true s = Ok s1
    /\ new_calls s s1
       = [WebSetHtml incremental_advisory; TimerStart TimerUpdateIndex 0]
    /\ step E (Timeout TimerUpdateIndex) s1 = Ok s2
    /\ found_items s2 = Some [].
Proof.
  intros E s.
  destruct (incremental_search_absent E (str "cat") s) as (_ & _ & _ & H).
  destruct (H false true (reset_search E false s))
    as (s1 & Hs1 & Hcalls & _ & Hcommit);
    [reflexivity|discriminate|reflexivity|reflexivity|].
  destruct Hcommit as (s2 & Hs2 & Hf & _).
  { split; simpl; [reflexivity|lia]. }
  exists s1, s2. repeat split; assumption.
Defined.

(** ** Fallback selection *)

Lemma most_similar_from_spec (E : env) (text : pystr) (items : list item)
    (r row : Z) (m : Q) :
  let ratio := fun it => quick_ratio E text (sortkey it) in
  let res := most_similar_from E text r items row m in
  (res = row /\ forall y, y ∈ items -> Qle (ratio y) m)
  \/ (exists (i : nat) (x : item),
        res = r + Z.of_nat i /\ items !! i = Some x /\ Qlt m (ratio x)
        /\ (forall y, y ∈ items -> Qle (ratio y) (ratio x))
        /\ forall (j : nat) (y : item),
             (j < i)%nat -> items !! j = Some y -> Qlt (ratio y) (ratio x)).
Proof.
  intros ratio. revert r row m.
  induction items as [|it items IH]; intros r row m; simpl.
  - left. split; [reflexivity|]. intros y Hy. by apply elem_of_nil in Hy.
  - fold (ratio it). destruct (Qle_bool (ratio it) m) eqn:Hle; simpl negb; cbv iota.
    + apply Qle_bool_iff in Hle.
      destruct (IH (r + 1) row m) as [[Hres Hall]|(i & x & Hres & Hi & Hm & Hall & Hfirst)].
      * left. split; [exact Hres|]. intros y Hy.
        apply elem_of_cons in Hy as [->|Hy]; auto.
      * right. exists (S i), x. split; [lia|]. split; [exact Hi|].
        split; [exact Hm|]. split.
        { intros y Hy. apply elem_of_cons in Hy as [->|Hy]; [|auto].
          apply Qlt_le_weak. eapply Qle_lt_trans; eassumption. }
        intros [|j] y Hj Hy; simpl in Hy.
        { injection Hy as <-. eapply Qle_lt_trans; eassumption. }
        apply (Hfirst j); [lia|exact Hy].
    + assert (Hlt : Qlt m (ratio it)).
      { apply Qnot_le_lt. intros Hc. apply Qle_bool_iff in Hc. congruence. }
      destruct (IH (r + 1) r (ratio it))
        as [[Hres Hall]|(i & x & Hres & Hi & Hm & Hall & Hfirst)].
      * right. exists 0%nat, it. split; [lia|]. split; [reflexivity|].
        split; [exact Hlt|]. split.
        { intros y Hy. apply elem_of_cons in Hy as [->|Hy]; [apply Qle_refl|auto]. }
        intros j y Hj. lia.
      * right. exists (S i), x. split; [lia|]. split; [exact Hi|].
        split; [eapply Qlt_trans; eassumption|]. split.
        { intros y Hy. apply elem_of_cons in Hy as [->|Hy]; [|auto].
          by apply Qlt_le_weak. }
        intros [|j] y Hj Hy; simpl in Hy.
        { by injection Hy as <-. }
        apply (Hfirst j); [lia|exact Hy].
Qed.

Lemma most_similar_row_spec (E : env) (text : pystr) (items : list item) :
  let ratio := fun it => quick_ratio E text (sortkey it) in
  let row := most_similar_row E text items in
  (row = -1 /\ forall y, y ∈ items -> Qle (ratio y) 0)
  \/ (first_best ratio items row
      /\ exists x, x ∈ items /\ Qlt 0 (ratio x)).
Proof.
  intros ratio row.
  destruct (most_similar_from_spec E text items 0 (-1) 0%Q)
    as [[Hres Hall]|(i & x & Hres & Hi & Hm & Hall & Hfirst)].
  - left. by split.
  - right. split.
    + exists i, x. repeat split; [exact Hres|exact Hi|exact Hall|exact Hfirst].
    + exists x. split; [by eapply list_elem_of_lookup_2|exact Hm].
Qed.

Lemma selectItemRelative_fallback (E : env) (rel : Z) (s : state)
    (items : list item) :
  found_items s = Some items -> items <> [] ->
  current_row s = -1 \/ line_focus s = true ->
  let text := lower E (normalize_index_key E (line_text s)) in
  selectItemRelative E rel s
  = list_setCurrentRow
      (match find_row (fun it => startswith (lower E (sortkey it)) text) items with
       | Some row => row
       | None => most_similar_row E text items
       end) (list_setFocus s).
Proof.
  intros Hitems Hne Hfb text. unfold selectItemRelative. rewrite Hitems.
  destruct items as [|it items]; [done|]. simpl truthy. simpl negb. cbv iota.
  assert (Hc : (current_row s =? -1) || line_focus s = true).
  { destruct Hfb as [->| ->]; [reflexivity|apply orb_true_r]. }
  rewrite Hc. simpl tuple_of. fold text. by destruct (find_row _ _).
Qed.

(** C9, as the code has it. With a non-empty list shown and either no
    current row or the focus in the query box, [selectItemRelative]
    selects the first item whose lowered sort key starts with the
    lowered, normalized query text. When there is none it selects the
    first of the items with the highest [quick_ratio] to the sort key,
    provided some ratio is positive; when every ratio is 0 it leaves no
    row selected. *)
Theorem fallback_selection (E : env) (rel : Z) (s : state) (items : list item) :
  found_items s = Some items -> items <> [] ->
  list_rows s = length items ->
  current_row s = -1 \/ line_focus s = true ->
  let text := lower E (normalize_index_key E (line_text s)) in
  let pre := fun it => startswith (lower E (sortkey it)) text in
  let ratio := fun it => quick_ratio E text (sortkey it) in
  let row := current_row (selectItemRelative E rel s) in
  (forall it, it ∈ items -> pre it = true -> first_row pre items row)
  /\ ((forall it, it ∈ items -> pre it = false) ->
      ((exists it, it ∈ items /\ Qlt 0 (ratio it)) -> first_best ratio items row)
      /\ ((forall it, it ∈ items -> Qle (ratio it) 0) -> row = -1)).
Proof.
  intros Hitems Hne Hrows Hfb text pre ratio row. subst row.
  rewrite (selectItemRelative_fallback E rel s items Hitems Hne Hfb).
  fold text pre.
  assert (Hset : forall r, 0 <= r < len items ->
            current_row (list_setCurrentRow r (list_setFocus s)) = r).
  { intros r Hr. apply list_setCurrentRow_in_range.
    change (list_rows (list_setFocus s)) with (list_rows s).
    rewrite Hrows. exact Hr. }
  split.
  - intros it Hit Hpre.
    destruct (find_row_exists pre items it Hit Hpre) as [r Hr].
    rewrite Hr. apply find_row_Some in Hr.
    rewrite Hset by (by eapply first_row_bounds). exact Hr.
  - intros Hnone.
    assert (Hf : find_row pre items = None).
    { unfold find_row. by apply find_row_from_None. }
    rewrite Hf.
    destruct (most_similar_row_spec E text items)
      as [[Hrow Hall]|[Hbest (x & Hx & Hpos)]].
    + split.
      * intros (it & Hit & Hpos). exfalso.
        apply (Qlt_not_le _ _ Hpos). by apply Hall.
      * intros _. rewrite Hrow. reflexivity.
    + assert (Hb : 0 <= most_similar_row E text items < len items).
      { destruct Hbest as (i & y & -> & Hi & _).
        apply lookup_lt_Some in Hi. unfold len. lia. }
      rewrite Hset by exact Hb. split.
      * intros _. exact Hbest.
      * intros Hall. exfalso. apply (Qlt_not_le _ _ Hpos). by apply Hall.
Qed.

Lemma fallback_selection_witness :
  let E := demo_env [] in
  let prefixed := [entry "catch" 0; entry "scatter" 0; entry "cater" 0] in
  let s1 := set_line_text (str "Scat")
              (set_list_rows 3 (set_found_items (Some prefixed) init_state)) in
  let similar := [entry "catch" 0; entry "cats" 0; entry "stac" 0] in
  let s2 := set_line_text (str "Scat")
              (set_list_rows 3 (set_found_items (Some similar) init_state)) in
  first_row (fun it => startswith (ascii_lower (sortkey it)) (str "scat"))
    prefixed (current_row (selectItemRelative E 0 s1))
  /\ first_best (fun it => Difflib.quick_ratio (str "scat") (sortkey it))
       similar (current_row (selectItemRelative E 0 s2))
  /\ current_row (selectItemRelative E 0 s2) = 1.
Proof.
  intros E prefixed s1 similar s2.
  destruct (fallback_selection E 0 s1 prefixed) as [Hpre _];
    [reflexivity|discriminate|reflexivity|left; reflexivity|].
  destruct (fallback_selection E 0 s2 similar) as [_ Hsim];
    [reflexivity|discriminate|reflexivity|left; reflexivity|].
  split; [|split].
  - apply (Hpre (entry "scatter" 0)); [compute_done|reflexivity].
  - apply Hsim.
    + intros it Hit. subst similar.
      repeat (apply elem_of_cons in Hit as [->|Hit]; [reflexivity|]).
      by apply elem_of_nil in Hit.
    + exists (entry "cats" 0). split; [compute_done|reflexivity].
  - reflexivity.
Defined.

(** C9, as the specification words it, fails: when no item shares a
    character with the query every ratio is 0, and no item is selected
    (not the first of the tied items). *)
Lemma fallback_selection_all_zero :
  ~ (forall (E : env) (rel : Z) (s : state) (items : list item),
       found_items s = Some items -> items <> [] ->
       list_rows s = length items ->
       current_row s = -1 \/ line_focus s = true ->
       let text := lower E (normalize_index_key E (line_text s)) in
       (forall it, it ∈ items ->
          startswith (lower E (sortkey it)) text = false) ->
       first_best (fun it => quick_ratio E text (sortkey it)) items
         (current_row (selectItemRelative E rel s))).
Proof.
  intros H.
  set (items := [entry "go" 0; entry "gone" 0]).
  set (s := set_line_text (str "fly")
              (set_list_rows 2 (set_found_items (Some items) init_state))).
  destruct (H (demo_env []) 0 s items) as (i & x & Hrow & _);
    [reflexivity|discriminate|reflexivity|left; reflexivity| |].
  - intros it Hit. subst items.
    repeat (apply elem_of_cons in Hit as [->|Hit]; [reflexivity|]).
    by apply elem_of_nil in Hit.
  - vm_compute in Hrow. destruct i; discriminate Hrow.
Qed.

(** ** Spell correction *)

Lemma split_from_cur_nonempty (c : N) (cur s : pystr) :
  split_from (c :: cur) s <> [].
Proof.
  revert c cur. induction s as [|d s IH]; intros c cur; simpl; [done|].
  destruct (isspace d); [done|apply IH].
Qed.

Lemma split_from_nil_spaces (s : pystr) :
  split_from [] s = [] -> Forall (fun c => isspace c = true) s.
Proof.
  induction s as [|c s IH]; simpl; [constructor|].
  destruct (isspace c) eqn:Hc.
  - intros H. constructor; [exact Hc|by apply IH].
  - intros H. by apply split_from_cur_nonempty in H.
Qed.

Lemma split_from_spaces (s : pystr) :
  Forall (fun c => isspace c = true) s -> split_from [] s = [].
Proof.
  induction 1 as [|c s Hc _ IH]; simpl; [done|]. by rewrite Hc.
Qed.

Lemma split_from_token (tok cur rest : pystr) :
  Forall (fun c => isspace c = false) tok ->
  split_from cur (tok ++ rest) = split_from (rev tok ++ cur) rest.
Proof.
  intros Htok. revert cur.
  induction Htok as [|c tok Hc _ IH]; intros cur; simpl; [done|].
  rewrite Hc, IH. by rewrite <- app_assoc.
Qed.

Lemma split_from_cur_one (cur s : pystr) :
  cur <> [] ->
  length (split_from cur s) = 1%nat ->
  exists tok post : pystr,
    s = tok ++ post
    /\ Forall (fun c => isspace c = false) tok
    /\ Forall (fun c => isspace c = true) post.
Proof.
  revert cur. induction s as [|c s IH]; intros cur Hcur Hlen.
  - exists [], []. by repeat split.
  - simpl in Hlen. destruct (isspace c) eqn:Hc.
    + destruct cur as [|d cur]; [done|]. simpl in Hlen.
      exists [], (c :: s). repeat split; [constructor|].
      constructor; [exact Hc|]. apply split_from_nil_spaces.
      destruct (split_from [] s); [done|simpl in Hlen; lia].
    + destruct (IH (c :: cur)) as (tok & post & -> & Htok & Hpost); [done|done|].
      exists (c :: tok), post. repeat split; [by constructor|done].
Qed.

Lemma split_one_token (s : pystr) :
  length (split s) = 1%nat <-> one_token s.
Proof.
  unfold split. split.
  - induction s as [|c s IH]; simpl; [done|].
    destruct (isspace c) eqn:Hc; intros Hlen.
    + destruct (IH Hlen) as (pre & tok & post & -> & Hpre & Hne & Htok & Hpost).
      exists (c :: pre), tok, post. repeat split; try done. by constructor.
    + destruct (split_from_cur_one [c] s) as (tok & post & -> & Htok & Hpost);
        [done|done|].
      exists [], (c :: tok), post. repeat split; try done. by constructor.
  - intros (pre & tok & post & -> & Hpre & Hne & Htok & Hpost).
    assert (Hskip : forall rest, split_from [] (pre ++ rest) = split_from [] rest).
    { intros rest. induction Hpre as [|c pre Hc _ IH]; simpl; [done|].
      by rewrite Hc. }
    rewrite Hskip, split_from_token, app_nil_r by exact Htok.
    assert (Hrev : rev tok <> []).
    { intros Hr. apply Hne. by rewrite <- (rev_involutive tok), Hr. }
    destruct Hpost as [|c post Hc Hpost]; simpl.
    + by destruct (rev tok).
    + rewrite Hc, (split_from_spaces post Hpost). by destruct (rev tok).
Qed.

Lemma spell_check_due_iff (s : state) :
  spell_check_due s = true
  <-> incr_results s = Some [] /\ fts_results s = Some []
      /\ one_token (strip (line_text s)).
Proof.
  unfold spell_check_due. rewrite <- split_one_token.
  destruct (incr_results s) as [[|i incr]|], (fts_results s) as [[|f full]|];
    simpl; try (split; [discriminate|intros (? & ? & ?); discriminate]).
  unfold len. split.
  - intros H. apply Z.eqb_eq in H. repeat split. lia.
  - intros (_ & _ & H). apply Z.eqb_eq. lia.
Qed.

Lemma calls_loadItem row s :
  exists l, calls (_loadItem row s) = calls s ++ l
            /\ forall c, c ∈ l -> exists url, c = WebLoad url.
Proof.
  unfold _loadItem.
  repeat case_match;
    try (exists []; split; [by rewrite app_nil_r|];
         intros c Hc; by apply elem_of_nil in Hc).
  eexists [_]. split; [reflexivity|].
  intros c Hc. apply list_elem_of_singleton in Hc. eauto.
Qed.

Lemma calls_selectItemRelative E rel s :
  calls (selectItemRelative E rel s) = calls s.
Proof. unfold selectItemRelative. repeat case_match; reflexivity. Qed.

Lemma calls_run_pending E s :
  exists l, calls (run_pending E s) = calls s ++ l
            /\ forall c, c ∈ l -> exists url, c = WebLoad url.
Proof.
  unfold run_pending.
  destruct (selection_pending s).
  - match goal with |- context [if ?b then _ else _] => destruct b end.
    + destruct (calls_loadItem None
                  (set_loading_pending false
                     (selectItemRelative E 0 (set_selection_pending false s))))
        as (l & Hl & Hload).
      exists l. split; [|exact Hload]. rewrite Hl. simpl.
      by rewrite calls_selectItemRelative.
    + exists []. rewrite calls_selectItemRelative, app_nil_r. split; [done|].
      intros c Hc. by apply elem_of_nil in Hc.
  - destruct (loading_pending s).
    + apply (calls_loadItem None (set_loading_pending false s)).
    + exists []. rewrite app_nil_r. split; [done|].
      intros c Hc. by apply elem_of_nil in Hc.
Qed.

Lemma calls_updateIndex E s s' :
  _updateIndex E s = Ok s' ->
  exists l,
    new_calls s s'
    = (if spell_check_due s then [TimerStart TimerSpellCorrection 200] else [])
      ++ l
    /\ forall c, c ∈ l -> exists url, c = WebLoad url.
Proof.
  unfold _updateIndex. intros H.
  destruct (escape_selection _) as [prev|e]; [|discriminate].
  unfold bind in H. injection H as <-.
  destruct (calls_run_pending E
              (select_shown_entry
                 (restore_selection prev (rebuild_list (arm_spell_correction s)))))
    as (l & Hl & Hload).
  exists l. split; [|exact Hload]. apply new_calls_app. rewrite Hl.
  assert (Hc : calls (select_shown_entry
                 (restore_selection prev (rebuild_list (arm_spell_correction s))))
               = calls (arm_spell_correction s)).
  { unfold select_shown_entry, restore_selection.
    repeat case_match; reflexivity. }
  rewrite Hc. unfold arm_spell_correction.
  destruct (spell_check_due s); simpl; by rewrite <- ?app_assoc.
Qed.

(** C6. A commit starts the spell-correction timer exactly when both
    result tuples are present and empty and the stripped query text is
    one whitespace-delimited token; the interval is then 200 ms. *)
Theorem spell_correction_timer (E : env) (s s' : state) (msec : Z) :
  _updateIndex E s = Ok s' ->
  TimerStart TimerSpellCorrection msec ∈ new_calls s s'
  <-> (incr_results s = Some [] /\ fts_results s = Some []
       /\ one_token (strip (line_text s)))
      /\ msec = 200.
Proof.
  intros Hup. destruct (calls_updateIndex E s s' Hup) as (l & -> & Hload).
  rewrite <- spell_check_due_iff. rewrite elem_of_app. split.
  - intros [Hin|Hin].
    + destruct (spell_check_due s); [|by apply elem_of_nil in Hin].
      apply list_elem_of_singleton in Hin. by injection Hin as <-.
    + destruct (Hload _ Hin) as [url Hurl]. discriminate Hurl.
  - intros [-> ->]. left. apply list_elem_of_singleton. reflexivity.
Qed.

Lemma spell_correction_timer_witness :
  let s := set_line_text (str " wierd ")
             (set_fts_results (Some []) (set_incr_results (Some []) init_state)) in
  exists s',
    _updateIndex (demo_env []) s = Ok s'
    /\ TimerStart TimerSpellCorrection 200 ∈ new_calls s s'
    /\ timers s' TimerSpellCorrection = Some 200.
Proof.
  intros s. eexists. split; [reflexivity|]. split; [|reflexivity].
  apply (spell_correction_timer (demo_env []) s _ 200 eq_refl).
  split; [|reflexivity]. split; [reflexivity|]. split; [reflexivity|].
  exists [], (str "wierd"), [].
  split; [reflexivity|]. split; [constructor|]. split; [discriminate|].
  split; [repeat constructor|constructor].
Defined.

(** ** Binary64 facts *)

Lemma digits2_pos_size (p : positive) : digits2_pos p = Pos.size p.
Proof. induction p; simpl; congruence. Qed.

Lemma Zdigits2_log2 (m : positive) : Zdigits2 (Z.pos m) = Z.log2 (Z.pos m) + 1.
Proof.
  simpl Zdigits2. rewrite digits2_pos_size.
  change (Z.pos (Pos.size m)) with (Z.log2 (Z.pos m~0)).
  change (Z.pos m~0) with (2 * Z.pos m).
  rewrite Z.log2_double by lia. lia.
Qed.

Lemma Zdigits2_bounds (m : positive) :
  2 ^ (Zdigits2 (Z.pos m) - 1) <= Z.pos m < 2 ^ Zdigits2 (Z.pos m).
Proof.
  rewrite Zdigits2_log2.
  replace (Z.log2 (Z.pos m) + 1 - 1) with (Z.log2 (Z.pos m)) by lia.
  apply Z.log2_spec. lia.
Qed.

Lemma Zdigits2_unique (m : positive) (d : Z) :
  2 ^ (d - 1) <= Z.pos m < 2 ^ d -> 1 <= d -> Zdigits2 (Z.pos m) = d.
Proof.
  intros H Hd. rewrite Zdigits2_log2.
  rewrite (Z.log2_unique (Z.pos m) (d - 1)); [lia|lia|].
  replace (Z.succ (d - 1)) with d by lia. exact H.
Qed.

Lemma shr_1_m (mrs : shr_record) :
  0 <= shr_m mrs -> shr_m (shr_1 mrs) = shr_m mrs / 2.
Proof.
  destruct mrs as [m r s]. simpl. intros Hm.
  rewrite <- Z.div2_div. destruct m as [|[p|p|]|p]; try reflexivity; lia.
Qed.

Lemma iter_pos_shr_1_m (n : positive) (mrs : shr_record) :
  0 <= shr_m mrs ->
  shr_m (SpecFloat.iter_pos shr_1 n mrs) = shr_m mrs / 2 ^ Z.pos n.
Proof.
  revert mrs. induction n as [n IH|n IH|]; intros mrs Hm; simpl SpecFloat.iter_pos.
  - assert (HP : 0 < 2 ^ Z.pos n) by (apply Z.pow_pos_nonneg; lia).
    assert (H1 : 0 <= shr_m (shr_1 mrs)).
    { rewrite shr_1_m by exact Hm. apply Z.div_pos; lia. }
    assert (H2 : 0 <= shr_m (SpecFloat.iter_pos shr_1 n (shr_1 mrs))).
    { rewrite IH by exact H1. apply Z.div_pos; lia. }
    rewrite IH by exact H2. rewrite IH by exact H1. rewrite shr_1_m by exact Hm.
    rewrite !Z.div_div by lia. f_equal.
    replace (Z.pos n~1) with (1 + Z.pos n + Z.pos n) by lia.
    rewrite !Z.pow_add_r by lia. change (2 ^ 1) with 2. ring.
  - assert (HP : 0 < 2 ^ Z.pos n) by (apply Z.pow_pos_nonneg; lia).
    assert (H2 : 0 <= shr_m (SpecFloat.iter_pos shr_1 n mrs)).
    { rewrite IH by exact Hm. apply Z.div_pos; lia. }
    rewrite IH by exact H2. rewrite IH by exact Hm.
    rewrite !Z.div_div by lia. f_equal.
    replace (Z.pos n~0) with (Z.pos n + Z.pos n) by lia.
    rewrite !Z.pow_add_r by lia. ring.
  - rewrite shr_1_m by exact Hm. reflexivity.
Qed.

Lemma pow2_le_inv (a b : Z) : 0 <= a -> 0 <= b -> 2 ^ a < 2 ^ b -> a < b.
Proof. intros Ha Hb H. apply (Z.pow_lt_mono_r_iff 2); lia. Qed.

Lemma Zdigits2_pos (m : positive) : 1 <= Zdigits2 (Z.pos m).
Proof. simpl. lia. Qed.

Lemma Zdigits2_ge (m : positive) (k : Z) :
  0 <= k -> 2 ^ k <= Z.pos m -> k + 1 <= Zdigits2 (Z.pos m).
Proof.
  intros Hk H. pose proof (Zdigits2_bounds m) as [_ Hu].
  pose proof (Zdigits2_pos m).
  assert (k < Zdigits2 (Z.pos m)); [|lia].
  apply pow2_le_inv; lia.
Qed.

Lemma Zdigits2_le (m : positive) (k : Z) :
  0 <= k -> Z.pos m < 2 ^ k -> Zdigits2 (Z.pos m) <= k.
Proof.
  intros Hk H. pose proof (Zdigits2_bounds m) as [Hl _].
  pose proof (Zdigits2_pos m).
  assert (Zdigits2 (Z.pos m) - 1 < k); [|lia].
  apply pow2_le_inv; lia.
Qed.

Lemma shr_record_of_loc_m (m : Z) (l : location) :
  shr_m (shr_record_of_loc m l) = m.
Proof. destruct l as [|[| |]]; reflexivity. Qed.

(** Shifting a mantissa of at least 53 digits down to 53 digits. *)
Lemma shr_fexp_normal (mx : positive) (ex : Z) (lx : location) :
  2 ^ 52 <= Z.pos mx -> -1021 <= ex ->
  let d := Zdigits2 (Z.pos mx) in
  let r := shr_fexp 53 1024 (Z.pos mx) ex lx in
  53 <= d
  /\ 2 ^ 52 <= shr_m (fst r) < 2 ^ 53
  /\ snd r = ex + (d - 53).
Proof.
  intros Hmx Hex d r.
  assert (Hd : 53 <= d) by (apply (Zdigits2_ge mx 52); lia).
  split; [exact Hd|].
  pose proof (Zdigits2_bounds mx) as [Hlo Hhi]. fold d in Hlo, Hhi.
  subst r. unfold shr_fexp, shr. fold d.
  assert (Hf : fexp 53 1024 (d + ex) - ex = d - 53).
  { unfold fexp, emin. lia. }
  rewrite Hf. destruct (d - 53) as [|n|n] eqn:Hn; [| |lia].
  - simpl fst. simpl snd. rewrite shr_record_of_loc_m.
    assert (d = 53) by lia. subst d. rewrite H in Hhi.
    split; [lia|lia].
  - simpl fst. simpl snd. split; [|reflexivity].
    rewrite iter_pos_shr_1_m by (rewrite shr_record_of_loc_m; lia).
    rewrite shr_record_of_loc_m.
    assert (HP : 0 < 2 ^ Z.pos n) by (apply Z.pow_pos_nonneg; lia).
    assert (E1 : 2 ^ (d - 1) = 2 ^ Z.pos n * 2 ^ 52).
    { rewrite <- Z.pow_add_r by lia. f_equal. lia. }
    assert (E2 : 2 ^ d = 2 ^ Z.pos n * 2 ^ 53).
    { rewrite <- Z.pow_add_r by lia. f_equal. lia. }
    split.
    + apply Z.div_le_lower_bound; [exact HP|]. rewrite <- E1. exact Hlo.
    + apply Z.div_lt_upper_bound; [exact HP|]. rewrite <- E2. exact Hhi.
Qed.

Lemma round_nearest_even_bounds (m : Z) (l : location) :
  m <= round_nearest_even m l <= m + 1.
Proof.
  destruct l as [|[| |]]; simpl; try lia. destruct (Z.even m); lia.
Qed.

(** Rounding a positive mantissa of at least 53 digits gives a normal
    double, or overflows. *)
Lemma binary_round_aux_normal (mx : positive) (ex : Z) (lx : location) :
  2 ^ 52 <= Z.pos mx -> -1021 <= ex ->
  let d := Zdigits2 (Z.pos mx) in
  exists (m : positive) (e : Z),
    binary_round_aux 53 1024 false (Z.pos mx) ex lx
    = (if e <=? 971 then S754_finite false m e else S754_infinity false)
    /\ 2 ^ 52 <= Z.pos m < 2 ^ 53
    /\ ex + (d - 53) <= e <= ex + (d - 53) + 1.
Proof.
  intros Hmx Hex d. unfold binary_round_aux.
  destruct (shr_fexp_normal mx ex lx Hmx Hex) as (Hd & Hm1 & He1).
  fold d in Hd, He1.
  destruct (shr_fexp 53 1024 (Z.pos mx) ex lx) as [mrs1 e1].
  simpl fst in Hm1. simpl snd in He1.
  pose proof (round_nearest_even_bounds (shr_m mrs1) (loc_of_shr_record mrs1)) as Hr.
  set (mr := round_nearest_even (shr_m mrs1) (loc_of_shr_record mrs1)) in *.
  destruct mr as [|pr|pr] eqn:Hmr; [lia| |lia].
  destruct (shr_fexp_normal pr e1 loc_Exact) as (Hd2 & Hm2 & He2); [lia|lia|].
  assert (Hd2' : Zdigits2 (Z.pos pr) <= 54).
  { apply Zdigits2_le; [lia|]. change (2 ^ 54) with (2 * 2 ^ 53). lia. }
  destruct (shr_fexp 53 1024 (Z.pos pr) e1 loc_Exact) as [mrs2 e2].
  simpl fst in Hm2. simpl snd in He2.
  destruct (shr_m mrs2) as [|m2|m2] eqn:Hm; [lia| |lia].
  exists m2, e2. change (1024 - 53) with 971.
  split; [reflexivity|]. split; [exact Hm2|]. lia.
Qed.

Lemma pos_iter_xO (k c : positive) :
  Z.pos (Pos.iter xO c k) = Z.pos c * 2 ^ Z.pos k.
Proof.
  induction k as [|k IH] using Pos.peano_ind.
  - simpl. lia.
  - rewrite Pos.iter_succ, Pos2Z.inj_xO, IH, Pos2Z.inj_succ, Z.pow_succ_r by lia.
    ring.
Qed.

(** [Float.nearest c] is a normal double whose exponent follows the size of [c]. *)
Lemma nearest_normal (c : positive) :
  let d := Zdigits2 (Z.pos c) in
  d <= 1023 ->
  exists (m : positive) (e : Z),
    Float.nearest (Z.pos c) = S754_finite false m e
    /\ 2 ^ 52 <= Z.pos m < 2 ^ 53
    /\ d - 53 <= e <= d - 52.
Proof.
  intros d Hd. unfold Float.nearest, Float.prec, Float.emax, binary_normalize, binary_round.
  pose proof (Zdigits2_pos c) as Hd1. fold d in Hd1.
  pose proof (Zdigits2_bounds c) as [Hlo Hhi]. fold d in Hlo, Hhi.
  change (Z.pos (digits2_pos c)) with d.
  assert (Hf : fexp 53 1024 (d + 0) = d - 53) by (unfold fexp, emin; lia).
  rewrite Hf. unfold shl_align.
  destruct (d - 53 - 0) as [|k|k] eqn:Hk.
  - destruct (binary_round_aux_normal c 0 loc_Exact) as (m & e & Hr & Hm & He);
      [|lia|].
    { replace 52 with (d - 1) by lia. exact Hlo. }
    fold d in He. exists m, e.
    destruct (Z.leb_spec e 971); [|lia]. split; [exact Hr|]. split; [exact Hm|lia].
  - destruct (binary_round_aux_normal c 0 loc_Exact) as (m & e & Hr & Hm & He);
      [|lia|].
    { apply Z.le_trans with (2 ^ (d - 1)); [|exact Hlo].
      apply Z.pow_le_mono_r; lia. }
    fold d in He. exists m, e.
    destruct (Z.leb_spec e 971); [|lia]. split; [exact Hr|]. split; [exact Hm|lia].
  - assert (Hmz : 2 ^ 52 <= Z.pos (Pos.iter xO c k) < 2 ^ 53).
    { rewrite pos_iter_xO.
      assert (E1 : 2 ^ 52 = 2 ^ (d - 1) * 2 ^ Z.pos k).
      { rewrite <- Z.pow_add_r by lia. f_equal. lia. }
      assert (E2 : 2 ^ 53 = 2 ^ d * 2 ^ Z.pos k).
      { rewrite <- Z.pow_add_r by lia. f_equal. lia. }
      assert (HP : 0 < 2 ^ Z.pos k) by (apply Z.pow_pos_nonneg; lia).
      rewrite E1, E2. split.
      - apply Z.mul_le_mono_nonneg_r; lia.
      - apply Z.mul_lt_mono_pos_r; lia. }
    destruct (binary_round_aux_normal (Pos.iter xO c k) (d - 53) loc_Exact)
      as (m & e & Hr & Hm & He); [lia|lia|].
    assert (Hdz : Zdigits2 (Z.pos (Pos.iter xO c k)) = 53).
    { apply Zdigits2_unique; [exact Hmz|lia]. }
    rewrite Hdz in He. exists m, e.
    destruct (Z.leb_spec e 971); [|lia]. split; [exact Hr|]. split; [exact Hm|lia].
Qed.

(** A normal double of exponent at least [-42] divided by [500.0] is not
    below [1.0]. *)
Lemma div_500_not_below_one (m1 : positive) (e1 : Z) :
  2 ^ 52 <= Z.pos m1 < 2 ^ 53 -> -42 <= e1 ->
  SFltb (SFdiv 53 1024 (S754_finite false m1 e1) (Float.nearest 500)) (Float.nearest 1)
  = false.
Proof.
  intros Hm1 He1.
  change (Float.nearest 500) with (S754_finite false 8796093022208000 (-44)).
  change (Float.nearest 1) with (S754_finite false 4503599627370496 (-52)).
  unfold SFdiv, SFdiv_core_binary.
  assert (Hd1 : Zdigits2 (Z.pos m1) = 53) by (apply Zdigits2_unique; [exact Hm1|lia]).
  rewrite Hd1.
  change (Zdigits2 (Z.pos 8796093022208000)) with 53.
  assert (He : Z.min (fexp 53 1024 (53 + e1 - (53 + -44))) (e1 - -44) = e1 - 9).
  { unfold fexp, emin. lia. }
  rewrite He.
  replace (e1 - -44 - (e1 - 9)) with 53 by lia.
  rewrite Z.shiftl_mul_pow2 by lia.
  pose proof (Z.div_eucl_eq (Z.pos m1 * 2 ^ 53) 8796093022208000) as Heq.
  pose proof (Z.mod_pos_bound (Z.pos m1 * 2 ^ 53) 8796093022208000) as Hmod.
  unfold Z.modulo in Hmod.
  destruct (Z.div_eucl (Z.pos m1 * 2 ^ 53) 8796093022208000) as [q r].
  specialize (Heq ltac:(lia)). specialize (Hmod ltac:(lia)).
  change (2 ^ 53) with 9007199254740992 in *.
  change (2 ^ 52) with 4503599627370496 in *.
  assert (Hq : 4503599627370496 <= q) by lia.
  destruct q as [|q|q]; [lia| |lia].
  destruct (binary_round_aux_normal q (e1 - 9)
              (new_location 8796093022208000 r))
    as (m & e & Hr & Hm & Hex); [exact Hq|lia|].
  change (xorb false false) with false. rewrite Hr.
  pose proof (Zdigits2_ge q 52 ltac:(lia) Hq) as Hdq.
  destruct (e <=? 971); [|reflexivity].
  unfold SFltb, SFcompare.
  destruct (Z.compare_spec e (-52)) as [Heq'|Hlt|Hgt]; [lia|lia|reflexivity].
Qed.

(** ** The adaptive delay *)

Lemma incr_delay_large (c : Z) :
  1024 <= c < 2 ^ 1023 -> _incr_delay_func c = Ok 100.
Proof.
  intros [Hlo Hhi]. destruct c as [|p|p]; [lia| |lia].
  assert (Hd1 : 11 <= Zdigits2 (Z.pos p)).
  { apply (Zdigits2_ge p 10); [lia|]. change (2 ^ 10) with 1024. exact Hlo. }
  assert (Hd2 : Zdigits2 (Z.pos p) <= 1023) by (apply Zdigits2_le; [lia|exact Hhi]).
  destruct (nearest_normal p Hd2) as (m & e & Hn & Hm & He).
  unfold _incr_delay_func, Float.of_int. rewrite Hn. unfold bind.
  unfold Float.py_min, Float.ltb, Float.div, Float.prec, Float.emax,
    _INCREMENTAL_LIMIT.
  rewrite div_500_not_below_one by (try exact Hm; lia).
  vm_compute. reflexivity.
Qed.

Lemma incr_delay_small_table :
  forallb (fun c => match _incr_delay_func c with
                    | Ok d => d =? exact_delay c - (if rounds_below c then 1 else 0)
                    | Raise _ => false
                    end)
    (map Z.of_nat (seq 0 1024)) = true.
Proof. vm_compute. reflexivity. Qed.

Lemma incr_delay_small (c : Z) :
  0 <= c < 1024 ->
  _incr_delay_func c = Ok (exact_delay c - (if rounds_below c then 1 else 0)).
Proof.
  intros Hc. pose proof incr_delay_small_table as Ht.
  rewrite forallb_forall in Ht. specialize (Ht c).
  destruct (_incr_delay_func c) as [d|e].
  - f_equal. apply Z.eqb_eq. apply Ht.
    apply in_map_iff. exists (Z.to_nat c). split; [lia|].
    apply in_seq. lia.
  - discriminate Ht. apply in_map_iff. exists (Z.to_nat c). split; [lia|].
    apply in_seq. lia.
Qed.

Lemma incr_delay_value (c : Z) :
  0 <= c < 2 ^ 1023 ->
  _incr_delay_func c = Ok (exact_delay c - (if rounds_below c then 1 else 0)).
Proof.
  intros Hc. destruct (Z.lt_ge_cases c 1024) as [Hs|Hl].
  - apply incr_delay_small. lia.
  - rewrite incr_delay_large by lia. f_equal.
    unfold exact_delay, rounds_below, _MAX_DELAY_UPDATE_INDEX, _INCREMENTAL_LIMIT.
    destruct (Z.eqb_spec c 285); [lia|]. destruct (Z.eqb_spec c 290); [lia|].
    simpl. assert (100 <= 100 * c / 500); [|lia].
    apply Z.div_le_lower_bound; lia.
Qed.

(** C2, as the code has it. For every count that [float] accepts, the
    delay is the integer part of [100 * max(0.3, min(1, count / 500))]
    computed in double precision: the exact integer part, less one at
    the counts 285 and 290. It lies between 30 and 100, and it does not
    decrease as the count grows (so it does not grow as the count falls
    toward 0). *)
Theorem incr_delay_bounds_monotone (c1 c2 : Z) :
  0 <= c1 <= c2 -> c2 < 2 ^ 1023 ->
  exists d1 d2 : Z,
    _incr_delay_func c1 = Ok d1 /\ _incr_delay_func c2 = Ok d2
    /\ d1 = exact_delay c1 - (if rounds_below c1 then 1 else 0)
    /\ d2 = exact_delay c2 - (if rounds_below c2 then 1 else 0)
    /\ 30 <= d1 /\ d1 <= d2 /\ d2 <= 100.
Proof.
  intros Hc Hmax. eexists _, _.
  split; [apply incr_delay_value; lia|].
  split; [apply incr_delay_value; lia|].
  split; [reflexivity|]. split; [reflexivity|].
  unfold exact_delay, rounds_below, _MAX_DELAY_UPDATE_INDEX, _INCREMENTAL_LIMIT.
  assert (Hdiv : 100 * c1 / 500 <= 100 * c2 / 500)
    by (apply Z.div_le_mono; lia).
  assert (H1 : c1 = 285 -> 100 * c1 / 500 = 57) by (intros ->; reflexivity).
  assert (H2 : c1 = 290 -> 100 * c1 / 500 = 58) by (intros ->; reflexivity).
  assert (H3 : c2 = 285 -> 100 * c2 / 500 = 57) by (intros ->; reflexivity).
  assert (H4 : c2 = 290 -> 100 * c2 / 500 = 58) by (intros ->; reflexivity).
  assert (H5 : 285 < c2 -> 57 <= 100 * c2 / 500).
  { intros H. apply Z.div_le_lower_bound; lia. }
  assert (H6 : 290 < c2 -> 58 <= 100 * c2 / 500).
  { intros H. apply Z.div_le_lower_bound; lia. }
  assert (H7 : c1 < 285 -> 100 * c1 / 500 <= 56).
  { intros H. assert (100 * c1 / 500 < 57); [|lia].
    apply Z.div_lt_upper_bound; lia. }
  assert (H8 : c1 < 290 -> 100 * c1 / 500 <= 57).
  { intros H. assert (100 * c1 / 500 < 58); [|lia].
    apply Z.div_lt_upper_bound; lia. }
  set (q1 := 100 * c1 / 500) in *. set (q2 := 100 * c2 / 500) in *.
  destruct (Z.eqb_spec c1 285), (Z.eqb_spec c1 290),
    (Z.eqb_spec c2 285), (Z.eqb_spec c2 290); cbn [orb]; lia.
Qed.

Lemma incr_delay_bounds_monotone_witness :
  _incr_delay_func 285 = Ok 56 /\ _incr_delay_func 400 = Ok 80.
Proof.
  destruct (incr_delay_bounds_monotone 285 400) as (d1 & d2 & H1 & H2 & -> & -> & _);
    [lia|reflexivity|].
  split; [exact H1|exact H2].
Defined.

(** C2, as the specification words it, fails: the delay is smaller, not
    larger, for the smaller count. *)
Lemma incr_delay_shrinks_with_count :
  ~ (forall c1 c2 d1 d2 : Z,
       0 <= c1 <= c2 ->
       _incr_delay_func c1 = Ok d1 -> _incr_delay_func c2 = Ok d2 ->
       d2 <= d1).
Proof.
  intros H.
  assert (H0 : _incr_delay_func 500 = Ok 100) by (vm_compute; reflexivity).
  specialize (H 0 500 30 100 ltac:(lia) incr_delay_zero H0). lia.
Qed.

(** ** More of the controller *)

(** X1. The merge made by [_updateIndex] loses nothing: every merged item
    comes from one of the two result lists, every incremental item is
    kept, the path of every full-text item is still listed, and when one of
    the two lists is empty or absent the merge is the other one. *)
Theorem merge_results_keeps_every_path (incr_res full_res : option (list item)) :
  let merged := merge_results incr_res full_res in
  (forall it, it ∈ merged -> it ∈ tuple_of incr_res \/ it ∈ tuple_of full_res)
  /\ (forall it, it ∈ tuple_of incr_res -> it ∈ merged)
  /\ (forall it, it ∈ tuple_of full_res -> path it ∈ map path merged)
  /\ (truthy incr_res = false -> merged = tuple_of full_res)
  /\ (truthy full_res = false -> merged = tuple_of incr_res).
Proof.
  intros merged. subst merged.
  assert (Hnone : forall A (r : option (list A)), truthy r = false -> tuple_of r = []).
  { intros A [[|x l]|]; simpl; try done. }
  destruct (truthy incr_res) eqn:Hi, (truthy full_res) eqn:Hf.
  - assert (Hm : merge_results incr_res full_res
                 = tuple_of incr_res
                   ++ filter (fun it => path it ∉ map path (tuple_of incr_res))
                        (tuple_of full_res)).
    { destruct incr_res as [incr|], full_res as [full|]; try discriminate.
      apply merge_results_both. }
    rewrite Hm. split; [|split; [|split; [|split]]]; try discriminate.
    + intros it Hit. apply elem_of_app in Hit as [Hit|Hit]; [by left|right].
      by apply list_elem_of_filter in Hit as [_ Hit].
    + intros it Hit. apply elem_of_app. by left.
    + intros it Hit. rewrite map_app. apply elem_of_app.
      destruct (decide (path it ∈ map path (tuple_of incr_res))) as [Hin|Hnin];
        [by left|right].
      apply list_elem_of_fmap. exists it. split; [done|].
      apply list_elem_of_filter. by split.
  - unfold merge_results. rewrite Hi, Hf. simpl. rewrite (Hnone _ _ Hf).
    split; [|split; [|split; [|split]]]; try discriminate; try done.
    + intros it Hit. by left.
    + intros it Hit. by apply elem_of_nil in Hit.
  - unfold merge_results. rewrite Hi, Hf. simpl. rewrite (Hnone _ _ Hi).
    split; [|split; [|split; [|split]]]; try discriminate; try done.
    + intros it Hit. by right.
    + intros it Hit. by apply elem_of_nil in Hit.
    + intros it Hit. apply list_elem_of_fmap. eauto.
  - unfold merge_results. rewrite Hi, Hf. simpl.
    rewrite (Hnone _ _ Hi), (Hnone _ _ Hf).
    split; [|split; [|split; [|split]]]; try done.
    + intros it Hit. by apply elem_of_nil in Hit.
    + intros it Hit. by apply elem_of_nil in Hit.
Qed.

(** X2. In every state the event loop reaches from the initial state the
    list widget agrees with [found_items] (as many rows, and the current
    row is -1 or one of them), and a commit ([_updateIndex]) run there
    returns without an exception and keeps that agreement. *)
Theorem reached_states_commit_safely (E : env) (evs : list event) (s : state) :
  run E evs init_state = Ok s ->
  list_in_sync s
  /\ exists s', _updateIndex E s = Ok s' /\ list_in_sync s'.
Proof.
  intros Hrun.
  assert (Hs : list_in_sync s) by (eapply run_in_sync; [apply list_in_sync_init|exact Hrun]).
  split; [exact Hs|]. by apply updateIndex_in_sync.
Qed.

Lemma reached_states_commit_safely_witness :
  let E := demo_env [entry "cat" 0; entry "catch" 0] in
  let evs := [TextEdited (str "cat"); Timeout TimerUpdateIndex;
              SelectItemRelative 1; TextEdited (str "ca")] in
  exists s s', run E evs init_state = Ok s /\ _updateIndex E s = Ok s'.
Proof.
  intros E evs.
  assert (Hrun : exists s, run E evs init_state = Ok s)
    by (eexists; vm_compute; reflexivity).
  destruct Hrun as [s Hrun].
  destruct (reached_states_commit_safely E evs s Hrun) as (_ & s' & Hs' & _).
  exists s, s'. split; assumption.
Defined.


(** The state a commit hands to its pending actions. *)
Lemma updateIndex_before_pending (E : env) (s s' : state) :
  _updateIndex E s = Ok s' ->
  exists s2,
    s' = run_pending E s2
    /\ found_items s2 = Some (merge_results (incr_results s) (fts_results s))
    /\ list_in_sync s2
    /\ web_url s2 = web_url s
    /\ line_text s2 = line_text s
    /\ calls s2 = calls (arm_spell_correction s)
    /\ timers s2 = timers (arm_spell_correction s)
    /\ selection_pending s2 = selection_pending s
    /\ loading_pending s2 = loading_pending s.
Proof.
  unfold _updateIndex. intros H.
  destruct (escape_selection _) as [prev|e]; [|discriminate].
  unfold bind in H. injection H as <-.
  eexists. split; [reflexivity|].
  assert (Hsync : list_in_sync
            (select_shown_entry
               (restore_selection prev (rebuild_list (arm_spell_correction s))))).
  { unfold select_shown_entry, restore_selection.
    repeat case_match; try apply list_in_sync_setCurrentRow;
      try apply list_in_sync_rebuild; try reflexivity.
    all: unfold list_setCurrentRow; reflexivity. }
  split; [|split; [exact Hsync|]].
  - rewrite found_items_select_shown_entry, found_items_restore_selection.
    unfold rebuild_list, arm_spell_correction. simpl.
    by destruct (spell_check_due s).
  - unfold select_shown_entry, restore_selection, arm_spell_correction.
    repeat case_match; repeat split; reflexivity.
Qed.

(** X3. A commit whose merged list is empty leaves the pending selection
    and the pending load as they were; a commit with results clears
    both. *)
Theorem pending_latches_until_results (E : env) (s s' : state) :
  _updateIndex E s = Ok s' ->
  let merged := merge_results (incr_results s) (fts_results s) in
  selection_pending s' = match merged with
                         | [] => selection_pending s
                         | _ => false
                         end
  /\ loading_pending s' = match merged with
                          | [] => loading_pending s
                          | _ => false
                          end.
Proof.
  intros Hup merged.
  destruct (updateIndex_before_pending E s s' Hup)
    as (s2 & -> & Hf & _ & _ & _ & _ & _ & Hsp & Hlp).
  fold merged in Hf. rewrite <- Hsp, <- Hlp. clear Hsp Hlp Hup.
  unfold run_pending.
  assert (Hsel : forall s3, found_items s3 = Some merged ->
            selection_pending (selectItemRelative E 0 s3)
            = match merged with [] => true | _ => selection_pending s3 end
            /\ loading_pending (selectItemRelative E 0 s3) = loading_pending s3
            /\ found_items (selectItemRelative E 0 s3) = Some merged).
  { intros s3 H3. unfold selectItemRelative. rewrite H3.
    destruct merged; simpl; [done|]. repeat case_match; done. }
  assert (Hload : forall s3, found_items s3 = Some merged ->
            loading_pending (_loadItem None s3)
            = match merged with [] => true | _ => loading_pending s3 end
            /\ selection_pending (_loadItem None s3) = selection_pending s3).
  { intros s3 H3. unfold _loadItem. rewrite H3.
    destruct merged; simpl; [done|]. repeat case_match; done. }
  destruct (selection_pending s2) eqn:Hsp.
  - destruct (Hsel (set_selection_pending false s2) Hf) as (S1 & S2 & S3).
    simpl in S2. rewrite S2.
    destruct (loading_pending s2) eqn:Hlp.
    + destruct (Hload (set_loading_pending false
                         (selectItemRelative E 0 (set_selection_pending false s2))))
        as (L1 & L2); [exact S3|].
      rewrite L1, L2. simpl. rewrite S1. by destruct merged.
    + rewrite S1, S2. by destruct merged.
  - destruct (loading_pending s2) eqn:Hlp.
    + destruct (Hload (set_loading_pending false s2) Hf) as (L1 & L2).
      rewrite L1, L2. simpl. rewrite Hsp. by destruct merged.
    + rewrite Hsp, Hlp. by destruct merged.
Qed.

Lemma pending_latches_until_results_witness :
  let E := demo_env [] in
  let s := set_loading_pending true (set_selection_pending true init_state) in
  let s1 := set_incr_results (Some [entry "cat" 0]) s in
  (exists s', _updateIndex E s = Ok s'
              /\ selection_pending s' = true /\ loading_pending s' = true)
  /\ (exists s', _updateIndex E s1 = Ok s'
               /\ selection_pending s' = false /\ loading_pending s' = false).
Proof.
  intros E s s1. split.
  - eexists. split; [reflexivity|].
    apply (pending_latches_until_results E s _ eq_refl).
  - eexists. split; [reflexivity|].
    apply (pending_latches_until_results E s1 _ eq_refl).
Defined.






Lemma reset_search_fields E pending s :
  let s0 := reset_search E pending s in
  incr_results s0 = None /\ fts_results s0 = None
  /\ label_searching s0 = false
  /\ selection_pending s0 = pending /\ loading_pending s0 = pending
  /\ line_text s0 = line_text s /\ auto_fts_phrase s0 = auto_fts_phrase s.
Proof. unfold reset_search. by destruct (_fts_hwdphr_async E). Qed.

(** X6. [_instantSearch] starts every search from a clean slate: the
    spelling and label timers are off, the full-text results and the
    searching label are cleared, and both pending flags are the [pending]
    argument. The commit timer is armed, with 0 ms when the search is not
    delayed or found no incremental results; the automatic full-text search
    is armed, with the query as its phrase, exactly when incremental
    results were stored, which needs a non-empty query. *)
Theorem search_resets_and_schedules_commit (E : env) (pending delay : bool)
    (s s1 : state) :
  _instantSearch E pending delay s = Ok s1 ->
  (exists msec, timers s1 TimerUpdateIndex = Some msec
                /\ (delay = false -> msec = 0)
                /\ (incr_results s1 = None -> msec = 0))
  /\ timers s1 TimerAutoFTS
     = match incr_results s1 with Some _ => Some 0 | None => None end
  /\ (forall results, incr_results s1 = Some results ->
        line_text s <> [] /\ auto_fts_phrase s1 = Some (line_text s))
  /\ timers s1 TimerSpellCorrection = None
  /\ timers s1 TimerSearchingLabel = None
  /\ fts_results s1 = None
  /\ label_searching s1 = false
  /\ selection_pending s1 = pending /\ loading_pending s1 = pending.
Proof.
  unfold _instantSearch. fold (reset_search E pending s).
  pose proof (reset_search_fields E pending s) as (R1 & R2 & R3 & R4 & R5 & R6 & R7).
  pose proof (reset_search_timers E pending s) as Rt.
  set (s0 := reset_search E pending s) in *.
  assert (Hoff : forall s0' msec t,
            t <> TimerUpdateIndex -> timers s0' t = None ->
            timers (timer_start TimerUpdateIndex msec s0') t = None).
  { intros s0' msec t Ht H0. rewrite timers_timer_start. by case_decide. }
  destruct (line_text s) as [|c q] eqn:Hq.
  { intros [= <-].
    split; [exists 0; by repeat split|].
    change (incr_results (timer_start TimerUpdateIndex 0 s0)) with (incr_results s0).
    rewrite R1.
    repeat split;
      first [reflexivity|exact R2|exact R3|exact R4|exact R5|discriminate
            |apply Hoff; [discriminate|apply Rt]]. }
  assert (Hfound : forall results s0' msec s1',
            incr_results s0' = None -> fts_results s0' = None ->
            label_searching s0' = false ->
            selection_pending s0' = pending -> loading_pending s0' = pending ->
            (forall t, timers s0' t = None) ->
            (if delay then _incr_delay_func (len results) else Ok 0) = Ok msec ->
            s1' = timer_start TimerUpdateIndex msec
                    (timer_start TimerAutoFTS 0
                       (set_auto_fts_phrase (Some (c :: q))
                          (set_incr_results (Some results) s0'))) ->
            (exists msec, timers s1' TimerUpdateIndex = Some msec
                          /\ (delay = false -> msec = 0)
                          /\ (incr_results s1' = None -> msec = 0))
            /\ timers s1' TimerAutoFTS
               = match incr_results s1' with Some _ => Some 0 | None => None end
            /\ (forall results, incr_results s1' = Some results ->
                  c :: q <> [] /\ auto_fts_phrase s1' = Some (c :: q))
            /\ timers s1' TimerSpellCorrection = None
            /\ timers s1' TimerSearchingLabel = None
            /\ fts_results s1' = None
            /\ label_searching s1' = false
            /\ selection_pending s1' = pending /\ loading_pending s1' = pending).
  { intros results s0' msec s1' H1 H2 H3 H4 H5 Ht Hd ->.
    split.
    { exists msec. split; [reflexivity|]. split; [|discriminate].
      intros ->. by injection Hd as <-. }
    change (incr_results (timer_start TimerUpdateIndex msec
              (timer_start TimerAutoFTS 0
                 (set_auto_fts_phrase (Some (c :: q))
                    (set_incr_results (Some results) s0')))))
      with (Some results).
    repeat split;
      first [reflexivity|exact H2|exact H3|exact H4|exact H5|discriminate
            |apply Hoff; [discriminate|]; rewrite timers_timer_start;
             case_decide; [discriminate|exact (Ht _)] ]. }
  destruct (contains_wild (c :: q)); simpl negb; cbv iota.
  - unfold bind at 1. cbv beta iota.
    destruct (if delay then _ else _) as [msec|e] eqn:Hd; [|discriminate].
    intros [= <-]. by eapply (Hfound [] s0 msec).
  - unfold _incremental_search.
    destruct (incremental E) as [search|].
    + destruct (search (c :: q) _INCREMENTAL_LIMIT) as [results|e].
      * unfold bind at 1. cbv beta iota.
        destruct (if delay then _ else _) as [msec|e] eqn:Hd; [|discriminate].
        intros [= <-].
        eapply (Hfound results
                  (emit (IncrementalSearch (c :: q) _INCREMENTAL_LIMIT) s0) msec);
          [exact R1|exact R2|exact R3|exact R4|exact R5|exact Rt|exact Hd
          |reflexivity].
      * destruct (caught_by_incremental_search e); [|discriminate].
        unfold bind. intros [= <-].
        split; [exists 0; by repeat split|].
        match goal with |- context [incr_results ?x] =>
          change (incr_results x) with (incr_results s0) end.
        rewrite R1.
        repeat split;
          first [reflexivity|exact R2|exact R3|exact R4|exact R5|discriminate
                |apply Hoff; [discriminate|apply Rt]].
    + unfold bind. intros [= <-].
      split; [exists 0; by repeat split|].
      match goal with |- context [incr_results ?x] =>
        change (incr_results x) with (incr_results s0) end.
      rewrite R1.
      repeat split;
        first [reflexivity|exact R2|exact R3|exact R4|exact R5|discriminate
              |apply Hoff; [discriminate|apply Rt]].
Qed.

Lemma search_resets_and_schedules_commit_witness :
  let E := demo_env [entry "cat" 0] in
  let s := set_line_text (str "cat") init_state in
  exists s1,
    _instantSearch E false true s = Ok s1
    /\ timers s1 TimerAutoFTS = Some 0
    /\ timers s1 TimerSpellCorrection = None.
Proof.
  intros E s. eexists. split; [reflexivity|].
  destruct (search_resets_and_schedules_commit E false true s _ eq_refl)
    as (_ & Hfts & _ & Hspell & _).
  split; [exact Hfts|exact Hspell].
Defined.

Lemma lstrip_split (s : pystr) : split (lstrip s) = split s.
Proof.
  unfold split. induction s as [|c s IH]; simpl; [done|].
  destruct (isspace c) eqn:Hc; [exact IH|]. simpl. by rewrite Hc.
Qed.

Lemma lstrip_decompose (s : pystr) :
  exists pre, s = pre ++ lstrip s /\ Forall (fun c => isspace c = true) pre.
Proof.
  induction s as [|c s (pre & Hs & Hpre)]; simpl.
  - exists []. by split.
  - destruct (isspace c) eqn:Hc.
    + exists (c :: pre). split; [simpl; by f_equal|by constructor].
    + exists []. by split.
Qed.

Lemma split_from_trailing_spaces (cur s post : pystr) :
  Forall (fun c => isspace c = true) post ->
  split_from cur (s ++ post) = split_from cur s.
Proof.
  intros Hpost. revert cur.
  induction s as [|c s IH]; intros cur; simpl.
  - destruct Hpost as [|d post Hd Hpost]; simpl; [done|].
    rewrite Hd, (split_from_spaces post Hpost). by destruct cur.
  - destruct (isspace c); [|apply IH]. destruct cur; by rewrite IH.
Qed.

Lemma rstrip_split (s : pystr) : split (rstrip s) = split s.
Proof.
  unfold rstrip, split.
  destruct (lstrip_decompose (rev s)) as (pre & Hs & Hpre).
  assert (Hs' : s = rev (lstrip (rev s)) ++ rev pre).
  { rewrite <- rev_app_distr, <- Hs. symmetry. apply rev_involutive. }
  rewrite Hs' at 2. symmetry. apply split_from_trailing_spaces.
  apply Forall_forall. intros c Hc.
  apply list_elem_of_In, in_rev in Hc.
  rewrite Forall_forall in Hpre. apply Hpre, list_elem_of_In, Hc.
Qed.

Lemma strip_split (s : pystr) : split (strip s) = split s.
Proof. unfold strip. by rewrite rstrip_split, lstrip_split. Qed.

Lemma run_pending_frame E s :
  timers (run_pending E s) = timers s
  /\ line_text (run_pending E s) = line_text s
  /\ completer (run_pending E s) = completer s.
Proof.
  unfold run_pending, selectItemRelative, _loadItem.
  repeat case_match; done.
Qed.

(** X7. When a commit finds both result lists empty and the stripped
    query is one word, stripping did not matter for the test, the spelling
    timer is armed with 200 ms, and its timeout asks the full-text
    searcher to correct the query as typed and installs the answer as the
    completer, issuing no other call. *)
Theorem armed_spell_correction_runs (E : env) (correct : pystr -> list pystr)
    (s s1 : state) :
  _updateIndex E s = Ok s1 ->
  incr_results s = Some [] -> fts_results s = Some [] ->
  one_token (strip (line_text s)) ->
  fts_hwdphr E = Some correct ->
  split (strip (line_text s)) = split (line_text s)
  /\ timers s1 TimerSpellCorrection = Some 200
  /\ exists s2,
       step E (Timeout TimerSpellCorrection) s1 = Ok s2
       /\ completer s2 = Some (correct (line_text s))
       /\ new_calls s1 s2 = [FtsCorrect (line_text s)]
       /\ timers s2 TimerSpellCorrection = None.
Proof.
  intros Hup Hi Hf Htok HE.
  split; [apply strip_split|].
  assert (Hdue : spell_check_due s = true) by (by apply spell_check_due_iff).
  destruct (updateIndex_before_pending E s s1 Hup)
    as (s2 & -> & _ & _ & _ & Hl & _ & Ht & _ & _).
  destruct (run_pending_frame E s2) as (Ft & Fl & _).
  assert (Harm : timers (run_pending E s2) TimerSpellCorrection = Some 200).
  { rewrite Ft, Ht. unfold arm_spell_correction. by rewrite Hdue. }
  split; [exact Harm|].
  unfold step. rewrite Harm. unfold timer_slot, _onTimerSpellCorrection.
  change (line_text (timer_stop TimerSpellCorrection (run_pending E s2)))
    with (line_text (run_pending E s2)).
  rewrite Fl, Hl, HE.
  assert (Hone : (len (split (line_text s)) =? 1) = true).
  { apply Z.eqb_eq. unfold len. rewrite <- strip_split.
    apply split_one_token in Htok. lia. }
  rewrite Hone. eexists. split; [reflexivity|].
  split; [reflexivity|]. split.
  - apply new_calls_app. reflexivity.
  - reflexivity.
Qed.

Lemma armed_spell_correction_runs_witness :
  let E := Env None (Some (fun _ => [str "weird"; str "wired"]))
             (fun key => key) ascii_lower Difflib.quick_ratio in
  let s := set_line_text (str " wierd ")
             (set_fts_results (Some []) (set_incr_results (Some []) init_state)) in
  exists s1 s2,
    _updateIndex E s = Ok s1
    /\ step E (Timeout TimerSpellCorrection) s1 = Ok s2
    /\ completer s2 = Some [str "weird"; str "wired"]
    /\ new_calls s1 s2 = [FtsCorrect (str " wierd ")].
Proof.
  intros E s.
  assert (Hup : exists s1, _updateIndex E s = Ok s1) by (eexists; reflexivity).
  destruct Hup as [s1 Hup].
  destruct (armed_spell_correction_runs E (fun _ => [str "weird"; str "wired"])
              s s1 Hup eq_refl eq_refl)
    as (_ & _ & s2 & Hs2 & Hc & Hcalls & _); [|reflexivity|].
  { exists [], (str "wierd"), [].
    split; [reflexivity|]. split; [constructor|]. split; [discriminate|].
    split; [repeat constructor|constructor]. }
  exists s1, s2. repeat split; assumption.
Defined.

Lemma run_cons E ev evs s :
  run E (ev :: evs) s = bind (step E ev s) (fun s' => run E evs s').
Proof. reflexivity. Qed.

Lemma bind_Ok {A B} (a : A) (k : A -> result B) : bind (Ok a) k = k a.
Proof. reflexivity. Qed.

(** X8. Typing a query without wildcards, letting the automatic full-text
    search run and complete with [full], then letting the commit timer
    fire, ends with the list holding the incremental results followed by
    the full-text items whose path they do not have; the list widget
    agrees with it and the commit timer is off. *)
Theorem typed_query_ends_in_merged_list (E : env)
    (search : pystr -> Z -> result (list item)) (q : pystr)
    (incr full : list item) (msec : Z) (s : state) :
  list_in_sync s ->
  q <> [] -> contains_wild q = false ->
  incremental E = Some search -> search q _INCREMENTAL_LIMIT = Ok incr ->
  _incr_delay_func (len incr) = Ok msec ->
  exists s',
    run E [TextEdited q; Timeout TimerAutoFTS;
           AsyncFTSearchFinished (Some (true, full));
           Timeout TimerUpdateIndex] s = Ok s'
    /\ found_items s'
       = Some (incr ++ filter (fun it => path it ∉ map path incr) full)
    /\ list_in_sync s'
    /\ timers s' TimerUpdateIndex = None.
Proof.
  intros Hsync Hq Hw HE Hsearch Hd.
  destruct q as [|c q]; [done|].
  (* the keystroke *)
  assert (H1 : exists s1,
            step E (TextEdited (c :: q)) s = Ok s1
            /\ incr_results s1 = Some incr /\ fts_results s1 = None
            /\ auto_fts_phrase s1 = Some (c :: q)
            /\ timers s1 TimerAutoFTS = Some 0).
  { unfold step, _onTextEdited, _instantSearch.
    change (line_text (set_completer None (set_line_text (c :: q) s)))
      with (c :: q).
    rewrite Hw. simpl negb. cbv iota.
    unfold _incremental_search. rewrite HE, Hsearch. unfold bind at 1.
    cbv beta iota. rewrite Hd. unfold bind.
    eexists. split; [reflexivity|]. repeat split; reflexivity. }
  destruct H1 as (s1 & Hs1 & Hi1 & Hf1 & Hp1 & Ht1).
  pose proof (step_in_sync E _ s s1 Hsync Hs1) as Hsync1.
  (* the full-text timer *)
  assert (H2 : exists s2,
            step E (Timeout TimerAutoFTS) s1 = Ok s2
            /\ incr_results s2 = Some incr /\ fts_results s2 = None).
  { unfold step. rewrite Ht1. unfold timer_slot, _onTimerAutoFullSearchTimeout.
    change (auto_fts_phrase (timer_stop TimerAutoFTS s1))
      with (auto_fts_phrase s1).
    rewrite Hp1. destruct (_fts_hwdphr_async E).
    - eexists. split; [reflexivity|]. split; [exact Hi1|exact Hf1].
    - eexists. split; [reflexivity|]. split; [exact Hi1|exact Hf1]. }
  destruct H2 as (s2 & Hs2 & Hi2 & Hf2).
  pose proof (step_in_sync E _ s1 s2 Hsync1 Hs2) as Hsync2.
  (* the completion *)
  set (s3 := _onAsyncFTSearchFinished (Some (true, full)) s2).
  assert (Hs3 : step E (AsyncFTSearchFinished (Some (true, full))) s2 = Ok s3)
    by reflexivity.
  pose proof (step_in_sync E _ s2 s3 Hsync2 Hs3) as Hsync3.
  assert (Hi3 : incr_results s3 = Some incr) by exact Hi2.
  assert (Hf3 : fts_results s3 = Some full) by reflexivity.
  assert (Ht3 : timers s3 TimerUpdateIndex = Some 0) by reflexivity.
  (* the commit *)
  set (s3' := timer_stop TimerUpdateIndex s3).
  assert (Hsync3' : list_in_sync s3') by exact Hsync3.
  destruct (updateIndex_in_sync E s3' Hsync3') as (s4 & Hs4 & Hsync4).
  exists s4. split.
  { assert (Hs4' : step E (Timeout TimerUpdateIndex) s3 = Ok s4).
    { unfold step. rewrite Ht3. exact Hs4. }
    rewrite run_cons, Hs1, bind_Ok, run_cons, Hs2, bind_Ok, run_cons, Hs3,
      bind_Ok, run_cons, Hs4', bind_Ok. reflexivity. }
  split.
  { rewrite (found_items_updateIndex E s3' s4 Hs4).
    change (incr_results s3') with (incr_results s3).
    change (fts_results s3') with (fts_results s3).
    by rewrite Hi3, Hf3, merge_results_both. }
  split; [exact Hsync4|].
  destruct (updateIndex_before_pending E s3' s4 Hs4)
    as (s5 & -> & _ & _ & _ & _ & _ & Ht5 & _).
  destruct (run_pending_frame E s5) as (-> & _).
  rewrite Ht5. unfold arm_spell_correction.
  destruct (spell_check_due s3'); reflexivity.
Qed.

Lemma typed_query_ends_in_merged_list_witness :
  let incr := [entry "cat" 0; entry "catch" 0] in
  let full := [entry "catch" 1; entry "scatter" 0] in
  exists s',
    run (demo_env incr)
      [TextEdited (str "cat"); Timeout TimerAutoFTS;
       AsyncFTSearchFinished (Some (true, full)); Timeout TimerUpdateIndex]
      init_state = Ok s'
    /\ found_items s'
       = Some [entry "cat" 0; entry "catch" 0; entry "scatter" 0].
Proof.
  intros incr full.
  destruct (typed_query_ends_in_merged_list (demo_env incr)
              (fun _ _ => Ok incr) (str "cat") incr full 30 init_state)
    as (s' & Hrun & Hf & _);
    [apply list_in_sync_init|discriminate|reflexivity|reflexivity|reflexivity
    |reflexivity|].
  exists s'. split; [exact Hrun|]. rewrite Hf. vm_compute. reflexivity.
Defined.

(** X9. An advanced search ([fullSearch]) whose full-text search completes
    with [result] (not to be merged), followed by the commit, shows exactly
    [result]: the incremental results it put aside are empty. The query
    box holds the phrase, and the search was asked for headwords only,
    without limit. *)
Theorem advanced_search_replaces_list (E : env) (phrase filters : option pystr)
    (result : list item) (s : state) :
  list_in_sync s -> _fts_hwdphr_async E = true ->
  exists s',
    run E [FullSearch phrase filters false;
           AsyncFTSearchFinished (Some (false, result));
           Timeout TimerUpdateIndex] s = Ok s'
    /\ found_items s' = Some result
    /\ list_rows s' = length result
    /\ line_text s' = default [] phrase
    /\ In (FtsUpdateQuery phrase filters [str "hm"] None false) (new_calls s s').
Proof.
  intros Hsync Hfts.
  set (s1 := fullSearch E phrase filters false s).
  assert (Hs1 : step E (FullSearch phrase filters false) s = Ok s1) by reflexivity.
  pose proof (step_in_sync E _ s s1 Hsync Hs1) as Hsync1.
  assert (Hc1 : calls s1 = calls s ++ [TimerStart TimerSearchingLabel 200;
                  FtsUpdateQuery phrase filters [str "hm"] None false;
                  TimerStart TimerUpdateIndex 0]).
  { subst s1. unfold fullSearch. rewrite Hfts. simpl. by rewrite <- !app_assoc. }
  assert (Hl1 : line_text s1 = default [] phrase).
  { subst s1. unfold fullSearch. by rewrite Hfts. }
  set (s2 := _onAsyncFTSearchFinished (Some (false, result)) s1).
  assert (Hs2 : step E (AsyncFTSearchFinished (Some (false, result))) s1 = Ok s2)
    by reflexivity.
  pose proof (step_in_sync E _ s1 s2 Hsync1 Hs2) as Hsync2.
  set (s2' := timer_stop TimerUpdateIndex s2).
  assert (Hsync2' : list_in_sync s2') by exact Hsync2.
  destruct (updateIndex_in_sync E s2' Hsync2') as (s3 & Hs3 & Hsync3).
  exists s3. split.
  { assert (Hs3' : step E (Timeout TimerUpdateIndex) s2 = Ok s3).
    { unfold step.
      assert (Ht2 : timers s2 TimerUpdateIndex = Some 0) by reflexivity.
      rewrite Ht2. exact Hs3. }
    rewrite run_cons, Hs1, bind_Ok, run_cons, Hs2, bind_Ok, run_cons, Hs3',
      bind_Ok. reflexivity. }
  assert (Hf3 : found_items s3 = Some result).
  { rewrite (found_items_updateIndex E s2' s3 Hs3).
    change (incr_results s2') with (@None (list item)).
    change (fts_results s2') with (Some result).
    unfold merge_results. simpl. by destruct result. }
  split; [exact Hf3|]. split.
  { destruct Hsync3 as [Hr _]. rewrite Hr, Hf3. reflexivity. }
  destruct (updateIndex_before_pending E s2' s3 Hs3)
    as (s4 & -> & _ & _ & _ & Hl4 & Hc4 & _).
  destruct (run_pending_frame E s4) as (_ & Fl & _).
  split.
  { rewrite Fl, Hl4. exact Hl1. }
  destruct (calls_run_pending E s4) as (l & Hl & _).
  unfold new_calls. rewrite Hl, Hc4.
  assert (Hc2 : calls (arm_spell_correction s2')
                = calls s ++ [TimerStart TimerSearchingLabel 200;
                     FtsUpdateQuery phrase filters [str "hm"] None false;
                     TimerStart TimerUpdateIndex 0; TimerStart TimerUpdateIndex 0]
                  ++ (if spell_check_due s2'
                      then [TimerStart TimerSpellCorrection 200] else [])).
  { unfold arm_spell_correction.
    assert (Hc2' : calls s2' = calls s1 ++ [TimerStart TimerUpdateIndex 0])
      by reflexivity.
    destruct (spell_check_due s2').
    - rewrite calls_timer_start, Hc2', Hc1, <- !app_assoc. reflexivity.
    - rewrite Hc2', Hc1, <- !app_assoc. reflexivity. }
  rewrite Hc2, <- !app_assoc, drop_app_length.
  simpl. right. left. reflexivity.
Qed.

Lemma advanced_search_replaces_list_witness :
  let result := [entry "take off" 0; entry "take-off" 1] in
  exists s',
    run (demo_env [])
      [FullSearch (Some (str "take off")) None false;
       AsyncFTSearchFinished (Some (false, result)); Timeout TimerUpdateIndex]
      (set_incr_results (Some [entry "cat" 0]) init_state) = Ok s'
    /\ found_items s' = Some result
    /\ line_text s' = str "take off".
Proof.
  intros result.
  destruct (advanced_search_replaces_list (demo_env []) (Some (str "take off"))
              None result (set_incr_results (Some [entry "cat" 0]) init_state))
    as (s' & Hrun & Hf & _ & Hl & _); [apply list_in_sync_init|reflexivity|].
  exists s'. repeat split; assumption.
Defined.

(** X10. Only the commit changes the list: every other event leaves
    [found_items] and the rows of the widget as they are, and every event
    other than the commit and a relative selection leaves the current
    row. *)
Theorem only_commit_changes_the_list (E : env) (ev : event) (s s' : state) :
  step E ev s = Ok s' ->
  ev <> Timeout TimerUpdateIndex ->
  found_items s' = found_items s
  /\ list_rows s' = list_rows s
  /\ ((forall rel, ev <> SelectItemRelative rel) ->
      current_row s' = current_row s).
Proof.
  intros Hstep Hev.
  destruct ev as [text|t|r| |rel| |phrase filters only_web|b|url];
    simpl in Hstep.
  - apply instantSearch_frame in Hstep as (H1 & H2 & H3). by repeat split.
  - destruct (timers s t); [|by simplify_eq].
    destruct t; simpl in Hstep; [done| | |].
    + unfold _onTimerAutoFullSearchTimeout in Hstep.
      repeat case_match; simplify_eq; done.
    + unfold _onTimerSpellCorrection in Hstep.
      repeat case_match; simplify_eq; done.
    + by simplify_eq.
  - simplify_eq. unfold _onAsyncFTSearchFinished. repeat case_match; done.
  - by simplify_eq.
  - simplify_eq. rewrite found_items_selectItemRelative.
    repeat split; [|intros H; by destruct (H rel)].
    unfold selectItemRelative. repeat case_match; reflexivity.
  - simplify_eq. rewrite found_items_loadItem, current_row_loadItem.
    repeat split. unfold _loadItem. repeat case_match; reflexivity.
  - simplify_eq. unfold fullSearch. case_match; done.
  - by simplify_eq.
  - by simplify_eq.
Qed.

Lemma only_commit_changes_the_list_witness :
  let items := [entry "cat" 0; entry "catch" 0] in
  let s := set_current_row 1 (set_list_rows 2 (set_found_items (Some items) init_state)) in
  exists s', step (demo_env []) (TextEdited (str "dog")) s = Ok s'
             /\ found_items s' = Some items /\ current_row s' = 1.
Proof.
  intros items s. eexists. split; [reflexivity|].
  destruct (only_commit_changes_the_list (demo_env []) (TextEdited (str "dog")) s _
              eq_refl) as (Hf & _ & Hc); [discriminate|].
  split; [exact Hf|]. apply Hc. discriminate.
Defined.

(** ** Search phrase *)












(** ** Clipboard *)













(** ** History menus *)

Lemma enumerate_from_lookup {A} (l : list A) (k : Z) (i : nat) :
  enumerate_from k l !! i = (fun x => (k + Z.of_nat i, x)) <$> l !! i.
Proof.
  revert k i. induction l as [|x l IH]; intros k [|i]; simpl; try done.
  - by rewrite Z.add_0_r.
  - rewrite IH. destruct (l !! i); simpl; [|done]. do 2 f_equal. lia.
Qed.

Lemma enumerate_from_length {A} (l : list A) (k : Z) :
  length (enumerate_from k l) = length l.
Proof. revert k. induction l as [|x l IH]; intros k; simpl; [done|]. by rewrite IH. Qed.

Lemma slice_lookup {A} (l : list A) (a b : Z) (i : nat) :
  0 <= a -> 0 <= b ->
  slice l a b !! i
  = if decide (a + Z.of_nat i < b) then l !! (Z.to_nat a + i)%nat else None.
Proof.
  intros Ha Hb. unfold slice, slice_bound.
  destruct (Z.ltb_spec a 0); [lia|]. destruct (Z.ltb_spec b 0); [lia|].
  unfold len. set (n := Z.of_nat (length l)).
  destruct (decide (a + Z.of_nat i < b)) as [Hlt|Hge].
  - destruct (decide (a + Z.of_nat i < n)) as [Hin|Hout].
    + rewrite lookup_take_lt by lia. rewrite lookup_drop. f_equal. lia.
    + rewrite (lookup_ge_None_2 l (Z.to_nat a + i)) by (subst n; lia).
      apply lookup_ge_None_2. rewrite length_take, length_drop. subst n. lia.
  - apply lookup_ge_None_2. rewrite length_take. lia.
Qed.

Lemma slice_length {A} (l : list A) (a b : Z) :
  0 <= a -> 0 <= b -> (length (slice l a b) <= Z.to_nat (b - a))%nat.
Proof.
  intros Ha Hb. unfold slice, slice_bound.
  destruct (Z.ltb_spec a 0); [lia|]. rewrite length_take, length_drop.
  unfold len. destruct (Z.ltb_spec b 0); lia.
Qed.

Lemma rev_lookup {A} (l : list A) (i : nat) :
  (i < length l)%nat -> rev l !! i = l !! (length l - S i)%nat.
Proof.
  induction l as [|x l IH]; intros Hi; simpl in *; [lia|].
  destruct (decide (i < length l)%nat) as [Hlt|Hge].
  - rewrite lookup_app_l by (rewrite length_rev; lia). rewrite IH by lia.
    replace (length l - i)%nat with (S (length l - S i)) by lia. reflexivity.
  - rewrite lookup_app_r by (rewrite length_rev; lia). rewrite length_rev.
    replace (i - length l)%nat with 0%nat by lia.
    replace (length l - i)%nat with 0%nat by lia. reflexivity.
Qed.

(** What the window holds, row by row. *)
Lemma nav_window_lookup (items : list history_item) (curidx : Z) (back : bool)
    (i : nat) (idx : Z) (h : history_item) :
  0 <= curidx ->
  nav_window items curidx back !! i = Some (idx, h) ->
  0 <= idx /\ items !! Z.to_nat idx = Some h /\ in_nav_range curidx back idx
  /\ idx = if back then Z.min curidx (len items) - 1 - Z.of_nat i
           else curidx + 1 + Z.of_nat i.
Proof.
  intros Hcur. unfold nav_window, in_nav_range. destruct back.
  - set (w := slice _ _ _). intros Hi.
    assert (Hlen : length w = Z.to_nat (Z.min curidx (len items)
                                        - Z.max 0 (curidx - 20))).
    { subst w. unfold slice, slice_bound. rewrite length_take, length_drop.
      unfold len. rewrite enumerate_from_length.
      destruct (Z.ltb_spec (Z.max 0 (curidx - 20)) 0); [lia|].
      destruct (Z.ltb_spec curidx 0); lia. }
    assert (Hi' : (i < length w)%nat).
    { apply lookup_lt_Some in Hi. by rewrite length_rev in Hi. }
    assert (Hrev : rev w !! i = w !! (length w - S i)%nat)
      by (by apply rev_lookup).
    rewrite Hrev in Hi. subst w.
    rewrite slice_lookup in Hi by lia.
    destruct (decide _) as [Hlt|]; [|done].
    rewrite enumerate_from_lookup in Hi.
    destruct (items !! _) as [h'|] eqn:Hh; [|done].
    simpl in Hi. injection Hi as <- <-.
    pose proof (lookup_lt_Some _ _ _ Hh) as Hb. unfold len in *.
    split; [lia|]. split; [|lia].
    rewrite <- Hh. f_equal. lia.
  - intros Hi. rewrite slice_lookup in Hi by lia.
    destruct (decide _) as [Hlt|]; [|done].
    rewrite enumerate_from_lookup in Hi.
    destruct (items !! _) as [h'|] eqn:Hh; [|done].
    simpl in Hi. injection Hi as <- <-.
    split; [lia|]. split; [|lia].
    rewrite <- Hh. f_equal. lia.
Qed.

Lemma StronglySorted_lookup {A} (R : A -> A -> Prop) (l : list A) :
  (forall (i j : nat) a b, (i < j)%nat -> l !! i = Some a -> l !! j = Some b -> R a b) ->
  StronglySorted R l.
Proof.
  induction l as [|x l IH]; intros Hl; constructor.
  - apply IH. intros i j a b Hij Ha Hb. by apply (Hl (S i) (S j) a b); [lia|..].
  - apply Forall_forall. intros y Hy.
    apply list_elem_of_lookup in Hy as [j Hj].
    by apply (Hl 0%nat (S j) x y); [lia|..].
Qed.

(** The history entries the menu loop keeps. *)
Lemma navmenu_actions_kept (ellipsis : pystr -> Z -> pystr)
    (urlset : gset pystr) (w : list (Z * history_item)) :
  exists kept : list (Z * history_item),
    navmenu_actions ellipsis urlset w
    = map (fun e => (ellipsis (h_title (snd e)) 20, fst e)) kept
    /\ (forall e, e ∈ kept ->
          e ∈ w /\ h_title (snd e) <> [] /\ h_url (snd e) ∉ urlset)
    /\ (length kept <= length w)%nat
    /\ NoDup (map (fun e => h_url (snd e)) kept)
    /\ (forall R : Z -> Z -> Prop,
          StronglySorted R (map fst w) -> StronglySorted R (map fst kept))
    /\ (forall e, e ∈ w -> h_title (snd e) <> [] ->
          h_url (snd e) ∈ urlset
          \/ h_url (snd e) ∈ map (fun e => h_url (snd e)) kept).
Proof.
  revert urlset. induction w as [|[idx h] w IH]; intros urlset.
  - exists []. simpl. split; [done|]. split.
    { intros e He. by apply elem_of_nil in He. }
    split; [done|]. split; [constructor|]. split; [done|].
    intros e He. by apply elem_of_nil in He.
  - simpl navmenu_actions.
    destruct (bool_decide_reflect (h_title h = [])) as [Ht|Ht]; simpl orb.
    { destruct (IH urlset) as (kept & Heq & Hin & Hlen & Hnd & Hsort & Hall).
      exists kept. split; [exact Heq|]. split.
      { intros e He. destruct (Hin e He) as (? & ? & ?). repeat split; try done.
        by right. }
      split; [simpl; lia|]. split; [exact Hnd|]. split.
      { intros R HR. apply Hsort. simpl in HR. by apply StronglySorted_inv in HR as [? _]. }
      intros e He Hte. apply elem_of_cons in He as [->|He]; [done|].
      by apply Hall. }
    destruct (bool_decide_reflect (h_url h ∈ urlset)) as [Hu|Hu].
    { destruct (IH urlset) as (kept & Heq & Hin & Hlen & Hnd & Hsort & Hall).
      exists kept. split; [exact Heq|]. split.
      { intros e He. destruct (Hin e He) as (? & ? & ?). repeat split; try done.
        by right. }
      split; [simpl; lia|]. split; [exact Hnd|]. split.
      { intros R HR. apply Hsort. simpl in HR. by apply StronglySorted_inv in HR as [? _]. }
      intros e He Hte. apply elem_of_cons in He as [->|He]; [by left|].
      by apply Hall. }
    destruct (IH ({[h_url h]} ∪ urlset))
      as (kept & Heq & Hin & Hlen & Hnd & Hsort & Hall).
    exists ((idx, h) :: kept). split; [simpl; by rewrite Heq|]. split.
    { intros e He. apply elem_of_cons in He as [->|He].
      - repeat split; [left|done|done].
      - destruct (Hin e He) as (? & ? & Hnot). repeat split; [by right|done|].
        intros Hx. apply Hnot. apply elem_of_union. by right. }
    split; [simpl; lia|]. split.
    { simpl. apply NoDup_cons. split; [|exact Hnd].
      intros Hdup. apply list_elem_of_fmap in Hdup as (e & He & Hek).
      destruct (Hin e Hek) as (_ & _ & Hnot). apply Hnot. rewrite <- He.
      apply elem_of_union. left. by apply elem_of_singleton. }
    split.
    { intros R HR. simpl in HR. apply StronglySorted_inv in HR as [HR Hx].
      simpl. constructor; [by apply Hsort|].
      apply Forall_forall. intros y Hy.
      apply list_elem_of_fmap in Hy as (e & -> & He).
      destruct (Hin e He) as (Hew & _).
      rewrite Forall_forall in Hx. apply Hx. apply list_elem_of_fmap. eauto. }
    intros e He Hte. apply elem_of_cons in He as [->|He].
    + right. simpl. left.
    + destruct (Hall e He Hte) as [Hset|Hk]; [|right; simpl; by right].
      apply elem_of_union in Hset as [Hs|Hs]; [|by left].
      apply elem_of_singleton in Hs. right. simpl. rewrite Hs. left.
Qed.

(** X12. A history menu built by [update_navmenu] has at most 20 entries.
    Each entry stands for a titled history item among the 20 before (after)
    the current one, and its action goes to that item's index, which
    [make_goto] accepts. No URL is listed twice, the entries run from the
    nearest item to the farthest, and every titled item among those 20 has
    its URL in the menu. *)
Theorem navmenu_lists_nearby_pages_once (ellipsis : pystr -> Z -> pystr)
    (items : list history_item) (curidx : Z) (back : bool) :
  0 <= curidx ->
  exists kept : list (Z * history_item),
    update_navmenu ellipsis items curidx back
    = map (fun e => (ellipsis (h_title (snd e)) 20, fst e)) kept
    /\ (length kept <= 20)%nat
    /\ (forall idx h, (idx, h) ∈ kept ->
          items !! Z.to_nat idx = Some h /\ h_title h <> []
          /\ in_nav_range curidx back idx
          /\ make_goto idx (len items) = Some idx)
    /\ NoDup (map (fun e => h_url (snd e)) kept)
    /\ StronglySorted (nav_order back) (map fst kept)
    /\ (forall idx h,
          0 <= idx -> in_nav_range curidx back idx ->
          items !! Z.to_nat idx = Some h -> h_title h <> [] ->
          h_url h ∈ map (fun e => h_url (snd e)) kept).
Proof.
  intros Hcur. unfold update_navmenu.
  set (w := nav_window items curidx back).
  destruct (navmenu_actions_kept ellipsis ∅ w)
    as (kept & Heq & Hin & Hlen & Hnd & Hsort & Hall).
  exists kept. split; [exact Heq|].
  assert (Hw : (length w <= 20)%nat).
  { subst w. unfold nav_window. destruct back.
    - rewrite length_rev.
      etrans; [apply slice_length; lia|]. lia.
    - etrans; [apply slice_length; lia|]. lia. }
  split; [lia|]. split.
  { intros idx h He. destruct (Hin _ He) as (Hew & Ht & _). simpl in Ht.
    apply list_elem_of_lookup in Hew as [i Hi].
    destruct (nav_window_lookup items curidx back i idx h Hcur Hi)
      as (H0 & Hh & Hr & _).
    repeat split; try done. unfold make_goto.
    apply lookup_lt_Some in Hh. unfold len.
    destruct (Z.leb_spec 0 idx); [|lia].
    destruct (Z.ltb_spec idx (Z.of_nat (length items))); [done|lia]. }
  split; [exact Hnd|]. split.
  { apply Hsort. rewrite <- list_fmap_alt_map || idtac.
    apply StronglySorted_lookup. intros i j a b Hij Ha Hb.
    change (map fst w) with (fst <$> w) in Ha, Hb.
    rewrite list_lookup_fmap in Ha, Hb.
    destruct (w !! i) as [[ia ha]|] eqn:Hwi; [|done].
    destruct (w !! j) as [[ib hb]|] eqn:Hwj; [|done].
    simpl in Ha, Hb. injection Ha as <-. injection Hb as <-.
    destruct (nav_window_lookup items curidx back i ia ha Hcur Hwi) as (_ & _ & _ & E1).
    destruct (nav_window_lookup items curidx back j ib hb Hcur Hwj) as (_ & _ & _ & E2).
    unfold nav_order. destruct back; lia. }
  intros idx h H0 Hr Hh Ht.
  assert (Hew : (idx, h) ∈ w).
  { subst w. unfold nav_window, in_nav_range in *.
    pose proof (lookup_lt_Some _ _ _ Hh) as Hb.
    destruct back.
    - apply list_elem_of_In. apply -> in_rev. apply list_elem_of_In.
      apply list_elem_of_lookup.
      exists (Z.to_nat (idx - Z.max 0 (curidx - 20))).
      rewrite slice_lookup by lia.
      destruct (decide _) as [_|Hn]; [|lia].
      rewrite enumerate_from_lookup.
      replace (Z.to_nat (Z.max 0 (curidx - 20))
               + Z.to_nat (idx - Z.max 0 (curidx - 20)))%nat
        with (Z.to_nat idx) by lia.
      rewrite Hh. simpl. do 2 f_equal. lia.
    - apply list_elem_of_lookup. exists (Z.to_nat (idx - (curidx + 1))).
      rewrite slice_lookup by lia.
      destruct (decide _) as [_|Hn]; [|lia].
      rewrite enumerate_from_lookup.
      replace (Z.to_nat (curidx + 1) + Z.to_nat (idx - (curidx + 1)))%nat
        with (Z.to_nat idx) by lia.
      rewrite Hh. simpl. do 2 f_equal. lia. }
  destruct (Hall _ Hew Ht) as [Hset|Hk]; [by apply elem_of_empty in Hset|exact Hk].
Qed.

Lemma navmenu_lists_nearby_pages_once_witness :
  let items := [HistoryItem (str "cat") (str "dict:///fs/cat");
                HistoryItem (str "dog") (str "dict:///fs/dog");
                HistoryItem (str "cat") (str "dict:///fs/cat");
                HistoryItem (str "cow") (str "dict:///fs/cow")] in
  exists kept : list (Z * history_item),
    update_navmenu (fun title _ => title) items 3 true
    = map (fun e => (h_title (snd e), fst e)) kept
    /\ NoDup (map (fun e => h_url (snd e)) kept).
Proof.
  intros items.
  destruct (navmenu_lists_nearby_pages_once (fun title _ => title) items 3 true)
    as (kept & Heq & _ & _ & Hnd & _); [lia|].
  exists kept. split; [exact Heq|exact Hnd].
Defined.

(** ** Resource loader *)

Lemma lazy_keys_ne :
  Loader._LAZY_FTS_HWDPHR_ASYNC <> Loader._LAZY_FTS_HWDPHR
  /\ Loader._LAZY_FTS_HWDPHR_ASYNC <> Loader._LAZY_FTS_DEFEXA
  /\ Loader._LAZY_FTS_HWDPHR_ASYNC <> Loader._LAZY_INCREMENTAL
  /\ Loader._LAZY_FTS_HWDPHR <> Loader._LAZY_FTS_DEFEXA
  /\ Loader._LAZY_FTS_HWDPHR <> Loader._LAZY_INCREMENTAL
  /\ Loader._LAZY_FTS_DEFEXA <> Loader._LAZY_INCREMENTAL.
Proof. repeat split; intros H; vm_compute in H; discriminate. Qed.

Lemma pop_and_release_lookup key how l k :
  Loader._lazy (Loader.pop_and_release key how l) !! k
  = if decide (k = key) then None else Loader._lazy l !! k.
Proof.
  unfold Loader.pop_and_release.
  destruct (Loader._lazy l !! key) as [obj|] eqn:Hk; simpl.
  - destruct (decide (k = key)) as [->|Hne].
    + apply lookup_delete_eq.
    + by apply lookup_delete_ne.
  - destruct (decide (k = key)) as [->|Hne]; done.
Qed.

Lemma pop_and_release_releases key how l :
  Loader.releases (Loader.pop_and_release key how l)
  = Loader.releases l ++ option_list (how <$> Loader._lazy l !! key).
Proof.
  unfold Loader.pop_and_release.
  destruct (Loader._lazy l !! key) as [obj|]; simpl; [done|].
  by rewrite app_nil_r.
Qed.

Lemma pop_and_release_scheme key how l :
  Loader.scheme_searchers (Loader.pop_and_release key how l)
  = Loader.scheme_searchers l.
Proof. unfold Loader.pop_and_release. by destruct (Loader._lazy l !! key). Qed.

Lemma unload_lookup l k :
  Loader._lazy (Loader._unload_searchers l) !! k
  = if decide (k = Loader._LAZY_INCREMENTAL) then None
    else if decide (k = Loader._LAZY_FTS_DEFEXA) then None
    else if decide (k = Loader._LAZY_FTS_HWDPHR) then None
    else if decide (k = Loader._LAZY_FTS_HWDPHR_ASYNC) then None
    else Loader._lazy l !! k.
Proof.
  unfold Loader._unload_searchers. by rewrite !pop_and_release_lookup.
Qed.

Lemma searcher_keys_elem k :
  k ∈ Loader.searcher_keys
  <-> k = Loader._LAZY_FTS_HWDPHR_ASYNC \/ k = Loader._LAZY_FTS_HWDPHR
      \/ k = Loader._LAZY_FTS_DEFEXA \/ k = Loader._LAZY_INCREMENTAL.
Proof.
  unfold Loader.searcher_keys. rewrite !elem_of_cons.
  split; [intros [|[|[|[|H]]]]; auto; by apply elem_of_nil in H|].
  intros [|[|[|]]]; auto.
Qed.

Lemma unload_lookup_key l k :
  k ∈ Loader.searcher_keys -> Loader._lazy (Loader._unload_searchers l) !! k = None.
Proof.
  intros Hk. rewrite unload_lookup. repeat case_match; try done.
  apply searcher_keys_elem in Hk. destruct Hk as [?|[?|[?|?]]]; congruence.
Qed.

(** X14. [_unload_searchers] leaves none of the four searchers loaded and
    nothing in the URL scheme handler, leaves the other lazy objects alone,
    and releases each searcher that was loaded exactly once: the
    asynchronous searcher is shut down first, then the headword, the
    definition and the incremental searcher are closed. Unloading again
    does nothing. *)
Theorem unload_releases_each_searcher_once (l : Loader.loader) :
  let l' := Loader._unload_searchers l in
  (forall key, key ∈ Loader.searcher_keys -> Loader._lazy l' !! key = None)
  /\ (forall key, key ∉ Loader.searcher_keys ->
        Loader._lazy l' !! key = Loader._lazy l !! key)
  /\ Loader.scheme_searchers l' = (None, None)
  /\ Loader.releases l'
     = Loader.releases l
       ++ option_list (Loader.Shutdown <$> Loader._lazy l !! Loader._LAZY_FTS_HWDPHR_ASYNC)
       ++ option_list (Loader.Close <$> Loader._lazy l !! Loader._LAZY_FTS_HWDPHR)
       ++ option_list (Loader.Close <$> Loader._lazy l !! Loader._LAZY_FTS_DEFEXA)
       ++ option_list (Loader.Close <$> Loader._lazy l !! Loader._LAZY_INCREMENTAL)
  /\ Loader._unload_searchers l' = l'.
Proof.
  destruct lazy_keys_ne as (N1 & N2 & N3 & N4 & N5 & N6).
  intros l'.
  split. { intros k Hk. by apply unload_lookup_key. }
  split.
  { intros k Hk. subst l'. rewrite unload_lookup.
    repeat case_match; try done; subst k; exfalso; apply Hk;
      apply searcher_keys_elem; auto. }
  assert (Hs : Loader.scheme_searchers l' = (None, None)).
  { subst l'. unfold Loader._unload_searchers.
    by rewrite !pop_and_release_scheme. }
  split; [exact Hs|].
  split.
  { subst l'. unfold Loader._unload_searchers.
    rewrite !pop_and_release_releases, !pop_and_release_lookup.
    cbn [Loader._lazy Loader.releases Loader._updateNetworkAccessManager].
    rewrite !decide_False by done.
    by rewrite <- !app_assoc. }
  assert (Hnone : forall k how l0, Loader._lazy l0 !! k = None ->
            Loader.pop_and_release k how l0 = l0).
  { intros k how l0 Hk. unfold Loader.pop_and_release. by rewrite Hk. }
  unfold Loader._unload_searchers.
  assert (Hupd : Loader._updateNetworkAccessManager None None l' = l').
  { unfold Loader._updateNetworkAccessManager. rewrite <- Hs. by destruct l'. }
  rewrite Hupd.
  rewrite (Hnone Loader._LAZY_FTS_HWDPHR_ASYNC)
    by (apply unload_lookup_key, searcher_keys_elem; auto).
  rewrite (Hnone Loader._LAZY_FTS_HWDPHR)
    by (apply unload_lookup_key, searcher_keys_elem; auto).
  rewrite (Hnone Loader._LAZY_FTS_DEFEXA)
    by (apply unload_lookup_key, searcher_keys_elem; auto).
  rewrite (Hnone Loader._LAZY_INCREMENTAL)
    by (apply unload_lookup_key, searcher_keys_elem; auto).
  done.
Qed.

Lemma consistent_unload l : Loader.consistent (Loader._unload_searchers l).
Proof.
  unfold Loader.consistent.
  rewrite !unload_lookup_key by (apply searcher_keys_elem; auto).
  split; [|by intros [? ?]].
  unfold Loader._unload_searchers. by rewrite !pop_and_release_scheme.
Qed.

(** What the getters of the full-text searchers leave behind. *)
Lemma fts_hwdphr_spec new l obj l' :
  Loader._fts_hwdphr new l = Ok (obj, l') ->
  Loader._lazy l' !! Loader._LAZY_FTS_HWDPHR = obj
  /\ (forall k, k <> Loader._LAZY_FTS_HWDPHR ->
        Loader._lazy l' !! k = Loader._lazy l !! k)
  /\ Loader.releases l' = Loader.releases l
  /\ (obj = None -> Loader._lazy l' = Loader._lazy l)
  /\ (l' = l
      \/ Loader.scheme_searchers l'
         = (Loader._lazy l' !! Loader._LAZY_FTS_HWDPHR,
            Loader._lazy l' !! Loader._LAZY_FTS_DEFEXA)).
Proof.
  unfold Loader._fts_hwdphr. intros H.
  destruct (Loader._lazy l !! Loader._LAZY_FTS_HWDPHR) as [o|] eqn:Hk.
  { simplify_eq. repeat split; auto. }
  destruct new as [o|e]; simpl in H.
  - simplify_eq. cbn [Loader._lazy Loader.releases Loader.scheme_searchers
      Loader._updateNetworkAccessManager Loader.set_lazy].
    split; [apply lookup_insert_eq|].
    split; [intros k Hne; by apply lookup_insert_ne|].
    split; [done|]. split; [done|]. by right.
  - destruct (Loader.caught_by_fts_loader e); simpl in H; [|done].
    simplify_eq. cbn [Loader._lazy Loader.releases Loader.scheme_searchers
      Loader._updateNetworkAccessManager Loader.set_lazy].
    repeat split; auto.
Qed.

Lemma fts_defexa_spec new l obj l' :
  Loader._fts_defexa new l = Ok (obj, l') ->
  Loader._lazy l' !! Loader._LAZY_FTS_DEFEXA = obj
  /\ (forall k, k <> Loader._LAZY_FTS_DEFEXA ->
        Loader._lazy l' !! k = Loader._lazy l !! k)
  /\ Loader.releases l' = Loader.releases l
  /\ (obj = None -> Loader._lazy l' = Loader._lazy l)
  /\ (l' = l
      \/ Loader.scheme_searchers l'
         = (Loader._lazy l' !! Loader._LAZY_FTS_HWDPHR,
            Loader._lazy l' !! Loader._LAZY_FTS_DEFEXA)).
Proof.
  unfold Loader._fts_defexa. intros H.
  destruct (Loader._lazy l !! Loader._LAZY_FTS_DEFEXA) as [o|] eqn:Hk.
  { simplify_eq. repeat split; auto. }
  destruct new as [o|e]; simpl in H.
  - simplify_eq. cbn [Loader._lazy Loader.releases Loader.scheme_searchers
      Loader._updateNetworkAccessManager Loader.set_lazy].
    split; [apply lookup_insert_eq|].
    split; [intros k Hne; by apply lookup_insert_ne|].
    split; [done|]. split; [done|]. by right.
  - destruct (Loader.caught_by_fts_loader e); simpl in H; [|done].
    simplify_eq. cbn [Loader._lazy Loader.releases Loader.scheme_searchers
      Loader._updateNetworkAccessManager Loader.set_lazy].
    repeat split; auto.
Qed.

Lemma fts_hwdphr_async_spec new new_async l obj l' :
  Loader._fts_hwdphr_async new new_async l = Ok (obj, l') ->
  Loader._lazy l' !! Loader._LAZY_FTS_HWDPHR_ASYNC = obj
  /\ (forall k, k <> Loader._LAZY_FTS_HWDPHR_ASYNC ->
        k <> Loader._LAZY_FTS_HWDPHR ->
        Loader._lazy l' !! k = Loader._lazy l !! k)
  /\ Loader.releases l' = Loader.releases l
  /\ (obj = None -> Loader._lazy l' = Loader._lazy l)
  /\ (is_Some obj -> is_Some (Loader._lazy l !! Loader._LAZY_FTS_HWDPHR_ASYNC)
        \/ is_Some (Loader._lazy l' !! Loader._LAZY_FTS_HWDPHR))
  /\ (is_Some (Loader._lazy l !! Loader._LAZY_FTS_HWDPHR) ->
        Loader._lazy l' !! Loader._LAZY_FTS_HWDPHR
        = Loader._lazy l !! Loader._LAZY_FTS_HWDPHR)
  /\ (l' = l
      \/ Loader.scheme_searchers l' = Loader.scheme_searchers l
         /\ Loader._lazy l' !! Loader._LAZY_FTS_HWDPHR
            = Loader._lazy l !! Loader._LAZY_FTS_HWDPHR
      \/ Loader.scheme_searchers l'
         = (Loader._lazy l' !! Loader._LAZY_FTS_HWDPHR,
            Loader._lazy l' !! Loader._LAZY_FTS_DEFEXA)).
Proof.
  destruct lazy_keys_ne as (N1 & N2 & N3 & N4 & N5 & N6).
  unfold Loader._fts_hwdphr_async. intros H.
  destruct (Loader._lazy l !! Loader._LAZY_FTS_HWDPHR_ASYNC) as [o|] eqn:Hk.
  { simplify_eq. repeat split; eauto. }
  destruct (Loader._fts_hwdphr new l) as [[searcher l1]|e] eqn:Hs; simpl in H;
    [|done].
  pose proof (fts_hwdphr_spec _ _ _ _ Hs) as (S1 & S2 & S3 & S4 & S5).
  assert (Hkeep : is_Some (Loader._lazy l !! Loader._LAZY_FTS_HWDPHR) ->
            l1 = l).
  { intros [o Ho]. unfold Loader._fts_hwdphr in Hs. rewrite Ho in Hs.
    by simplify_eq. }
  destruct searcher as [sr|]; simplify_eq.
  - cbn [Loader._lazy Loader.releases Loader.scheme_searchers Loader.set_lazy].
    split; [apply lookup_insert_eq|].
    split.
    { intros k Hne1 Hne2. rewrite lookup_insert_ne by done. by apply S2. }
    split; [done|]. split; [done|].
    split.
    { intros _. right. rewrite lookup_insert_ne by done. by rewrite S1. }
    split.
    { intros Hsome. rewrite lookup_insert_ne by done. by rewrite (Hkeep Hsome). }
    rewrite !lookup_insert_ne by done.
    destruct S5 as [->|S5]; [right; left; done|right; right; exact S5].
  - rewrite (S4 eq_refl).
    split; [done|]. split; [done|]. split; [done|]. split; [done|].
    split; [by intros [? ?]|]. split; [done|].
    destruct S5 as [->|S5]; [by left|].
    right. right. by rewrite <- (S4 eq_refl).
Qed.

Lemma incremental_spec new l obj l' :
  Loader._incremental new l = Ok (obj, l') ->
  Loader._lazy l' !! Loader._LAZY_INCREMENTAL = obj
  /\ (forall k, k <> Loader._LAZY_INCREMENTAL ->
        Loader._lazy l' !! k = Loader._lazy l !! k)
  /\ Loader.releases l' = Loader.releases l
  /\ (obj = None -> Loader._lazy l' = Loader._lazy l)
  /\ Loader.scheme_searchers l' = Loader.scheme_searchers l.
Proof.
  unfold Loader._incremental. intros H.
  destruct (Loader._lazy l !! Loader._LAZY_INCREMENTAL) as [o|] eqn:Hk.
  { simplify_eq. repeat split; auto. }
  destruct new as [o|e].
  - simplify_eq. cbn [Loader._lazy Loader.releases Loader.scheme_searchers
      Loader.set_lazy].
    split; [apply lookup_insert_eq|].
    split; [intros k Hne; by apply lookup_insert_ne|]. done.
  - destruct (caught_by_incremental_search e); [|done].
    simplify_eq. repeat split; auto.
Qed.

(** X15. Every access to the searchers keeps the loader consistent: the
    URL scheme handler holds exactly the full-text searchers that are
    loaded, and the asynchronous searcher is loaded only together with the
    headword searcher it wraps. The getters never close anything. *)
Theorem loader_stays_consistent (a : Loader.access) (l l' : Loader.loader)
    (r : option Loader.handle) :
  Loader.consistent l ->
  Loader.perform a l = Ok (r, l') ->
  Loader.consistent l'
  /\ (a <> Loader.Unload -> Loader.releases l' = Loader.releases l).
Proof.
  destruct lazy_keys_ne as (N1 & N2 & N3 & N4 & N5 & N6).
  intros [Hsch Has] H. destruct a as [new|new|new new_async|new|]; simpl in H.
  - pose proof (fts_hwdphr_spec _ _ _ _ H) as (S1 & S2 & S3 & S4 & S5).
    split; [|done]. split.
    + destruct S5 as [->|S5]; done.
    + rewrite (S2 Loader._LAZY_FTS_HWDPHR_ASYNC) by done.
      intros Hsome. destruct (Has Hsome) as [sr Hsr].
      unfold Loader._fts_hwdphr in H. rewrite Hsr in H. simplify_eq. eauto.
  - pose proof (fts_defexa_spec _ _ _ _ H) as (S1 & S2 & S3 & S4 & S5).
    split; [|done]. split.
    + destruct S5 as [->|S5]; done.
    + rewrite (S2 Loader._LAZY_FTS_HWDPHR_ASYNC), (S2 Loader._LAZY_FTS_HWDPHR)
        by done.
      exact Has.
  - pose proof (fts_hwdphr_async_spec _ _ _ _ _ H)
      as (S1 & S2 & S3 & S4 & S5 & S6 & S7).
    split; [|done]. split.
    + destruct S7 as [->|[[S7 S8]|S7]]; [done| |done].
      rewrite S7, Hsch, S8. f_equal. symmetry. by apply S2.
    + rewrite S1. intros Hr. destruct (S5 Hr) as [Hold|Hnew]; [|done].
      rewrite S6 by auto. auto.
  - pose proof (incremental_spec _ _ _ _ H) as (S1 & S2 & S3 & S4 & S5).
    split; [|done]. split.
    + rewrite S5, Hsch.
      by rewrite (S2 Loader._LAZY_FTS_HWDPHR), (S2 Loader._LAZY_FTS_DEFEXA) by done.
    + rewrite (S2 Loader._LAZY_FTS_HWDPHR_ASYNC), (S2 Loader._LAZY_FTS_HWDPHR)
        by done.
      exact Has.
  - simplify_eq. split; [apply consistent_unload|done].
Qed.

Lemma loader_stays_consistent_witness :
  let l := Loader.Mk ∅ (None, None) [] in
  Loader.consistent l
  /\ exists r l',
       Loader.perform (Loader.GetFtsHwdphrAsync (Ok 7%N) N.succ) l = Ok (r, l')
       /\ Loader.consistent l'.
Proof.
  intros l.
  assert (Hl : Loader.consistent l).
  { split; [reflexivity|]. intros [x Hx]. discriminate Hx. }
  split; [exact Hl|]. eexists _, _. split; [reflexivity|].
  exact (proj1 (loader_stays_consistent
                  (Loader.GetFtsHwdphrAsync (Ok 7%N) N.succ) l _ _ Hl eq_refl)).
Defined.

(** X16. A getter returns what it leaves stored under its key. An object
    it returns is reused: the next access to the same key returns the same
    object, whatever the constructor would do, and changes nothing. A
    failed load stores nothing, so the next access tries again. *)
Theorem loaded_searcher_is_reused (a : Loader.access) (l l' : Loader.loader)
    (r : option Loader.handle) :
  Loader.perform a l = Ok (r, l') ->
  a <> Loader.Unload ->
  exists key,
    Loader.key_of a = Some key
    /\ Loader._lazy l' !! key = r
    /\ match r with
       | Some obj =>
           forall a', Loader.key_of a' = Some key ->
                      Loader.perform a' l' = Ok (Some obj, l')
       | None => Loader._lazy l' = Loader._lazy l
       end.
Proof.
  intros H Ha. destruct a as [new|new|new new_async|new|]; simpl in H; [..|done].
  - pose proof (fts_hwdphr_spec _ _ _ _ H) as (S1 & _ & _ & S4 & _).
    eexists. split; [reflexivity|]. split; [exact S1|].
    destruct r as [obj|]; [|by apply S4].
    intros a' Ha'. destruct a'; simplify_eq.
    simpl. unfold Loader._fts_hwdphr. by rewrite S1.
  - pose proof (fts_defexa_spec _ _ _ _ H) as (S1 & _ & _ & S4 & _).
    eexists. split; [reflexivity|]. split; [exact S1|].
    destruct r as [obj|]; [|by apply S4].
    intros a' Ha'. destruct a'; simplify_eq.
    simpl. unfold Loader._fts_defexa. by rewrite S1.
  - pose proof (fts_hwdphr_async_spec _ _ _ _ _ H) as (S1 & _ & _ & S4 & _).
    eexists. split; [reflexivity|]. split; [exact S1|].
    destruct r as [obj|]; [|by apply S4].
    intros a' Ha'. destruct a'; simplify_eq.
    simpl. unfold Loader._fts_hwdphr_async. by rewrite S1.
  - pose proof (incremental_spec _ _ _ _ H) as (S1 & _ & _ & S4 & _).
    eexists. split; [reflexivity|]. split; [exact S1|].
    destruct r as [obj|]; [|by apply S4].
    intros a' Ha'. destruct a'; simplify_eq.
    simpl. unfold Loader._incremental. by rewrite S1.
Qed.

Lemma loaded_searcher_is_reused_witness :
  let l := Loader.Mk ∅ (None, None) [] in
  exists l',
    Loader.perform (Loader.GetIncremental (Ok 3%N)) l = Ok (Some 3%N, l')
    /\ Loader.perform (Loader.GetIncremental (Raise EnvironmentError)) l'
       = Ok (Some 3%N, l').
Proof.
  intros l. eexists. split; [reflexivity|].
  destruct (loaded_searcher_is_reused (Loader.GetIncremental (Ok 3%N)) l _ _ eq_refl)
    as (key & Hkey & _ & Hre); [discriminate|].
  apply Hre. exact Hkey.
Defined.

(** ** Window layout *)

(** X17. [resizeEvent]: as the window gets wider the texts of the three
    search actions only grow, each text of a narrower window being a prefix
    of the text of a wider one; the splitter is vertical exactly below 550
    pixels, so it never turns back to vertical in a wider window. *)
Theorem wider_window_longer_labels (w1 w2 : Z) :
  w1 <= w2 ->
  let a := resizeEvent w1 in
  let b := resizeEvent w2 in
  String.prefix (search_examples_text a) (search_examples_text b) = true
  /\ String.prefix (search_definitions_text a) (search_definitions_text b) = true
  /\ String.prefix (advanced_search_text a) (advanced_search_text b) = true
  /\ (splitter_orientation a = Horizontal -> splitter_orientation b = Horizontal)
  /\ (splitter_orientation a = Vertical <-> w1 < 550).
Proof.
  intros Hle a b. subst a b. unfold resizeEvent.
  destruct (Z.ltb_spec w1 350), (Z.ltb_spec w1 550), (Z.ltb_spec w1 900),
    (Z.ltb_spec w2 350), (Z.ltb_spec w2 550), (Z.ltb_spec w2 900);
    try lia; simpl; repeat split; try reflexivity; try discriminate; try lia;
    intros; try discriminate; try lia.
Qed.

Lemma wider_window_longer_labels_witness :
  String.prefix (search_examples_text (resizeEvent 400))
    (search_examples_text (resizeEvent 1000)) = true
  /\ splitter_orientation (resizeEvent 400) = Vertical.
Proof.
  destruct (wider_window_longer_labels 400 1000 ltac:(lia))
    as (Hp & _ & _ & _ & Hv).
  split; [exact Hp|]. apply Hv. lia.
Defined.
